(** * The transcription client of [src/App.tsx]

    A shallow embedding of the [App] component: its React state, the two
    refs, the Socket.IO handlers registered in the mount effect and the two
    asynchronous session operations [startRecording] and [stopRecording].

    JavaScript runs the component on one thread: a handler or the part of an
    [async] function between two [await]s runs to completion before anything
    else does.  Each such part is a function [World -> World]; an [await] is
    a point where the outcome of the awaited promise is supplied from outside
    and where other arrivals (socket events, recorder chunks) may be handled
    first. *)

From stdpp Require Import base numbers list strings gmap.

Open Scope string_scope.
Open Scope list_scope.

(** ** JavaScript values carried by payloads and React state

    Socket.IO hands the handlers a [data] of type [any]; the fields read from
    it are stored without inspection, except by [||].  Numbers are the
    integers here: no handler computes with them. *)

Inductive JsVal :=
| JsUndefined
| JsNull
| JsBool (b : bool)
| JsNum (n : Z)
| JsStr (s : string).

Global Instance JsVal_eq_dec : EqDecision JsVal.
Proof. solve_decision. Defined.

(** ToBoolean. *)
Definition truthy (v : JsVal) : bool :=
  match v with
  | JsUndefined | JsNull => false
  | JsBool b => b
  | JsNum n => negb (n =? 0)%Z
  | JsStr s => negb (String.eqb s "")
  end.

(** [a || b] *)
Definition js_or (a b : JsVal) : JsVal := if truthy a then a else b.

(** A payload object; [data.f] of an absent field is [undefined]. *)
Abbreviation Payload := (gmap string JsVal).

Definition field (data : Payload) (f : string) : JsVal :=
  default JsUndefined (data !! f).

(** ** Data of the component *)

(** [interface TranscriptSegment { text: string; speakerId?: string }] *)
Record TranscriptSegment := {
  text : JsVal;
  speakerId : JsVal;
}.

Global Instance TranscriptSegment_eq_dec : EqDecision TranscriptSegment.
Proof. solve_decision. Defined.

(** A socket made by [io(socketURL, { query: { room }, ... })]. *)
Record Socket := {
  sock_room : string;
  sock_connected : bool;
}.

(** A [RecordRTC] instance. *)
Inductive RecStatus := RecInactive | RecRecording | RecStopped.

Global Instance RecStatus_eq_dec : EqDecision RecStatus.
Proof. solve_decision. Defined.

Record Recorder := {
  rec_stream : nat;
  rec_status : RecStatus;
}.

(** What the component does to the outside and to React, in program order. *)
Inductive Effect :=
| ESetRecording (b : bool)
| ESetTranscripts (new : list TranscriptSegment)
| ESetChapterTitles (v : JsVal)
| ESetProgress (v : JsVal)
| EFetch (url : string) (body_room : string)
| EConsoleLog (msg : string) (arg : string)
| EConsoleError (msg : string) (arg : string)
| EToast (title : string)
| EGetUserMedia
| ENewRecordRTC (r : nat) (stream : nat)
| ERecStart (r : nat)
| ERecStop (r : nat)
| EEmitAudio (sock : nat) (body_room : string) (audio : list Byte.byte)
| ESocketOpen (sock : nat) (query_room : string)
| ESocketDisconnect (sock : nat).

Definition is_network (e : Effect) : bool :=
  match e with
  | EFetch _ _ | EEmitAudio _ _ _ | ESocketOpen _ _ | ESocketDisconnect _ => true
  | _ => false
  end.

Definition is_emit (e : Effect) : bool :=
  match e with EEmitAudio _ _ _ => true | _ => false end.

Definition is_fetch (e : Effect) : bool :=
  match e with EFetch _ _ => true | _ => false end.

Definition is_aggregate_write (e : Effect) : bool :=
  match e with
  | ESetTranscripts _ | ESetChapterTitles _ | ESetProgress _ => true
  | _ => false
  end.

Definition is_disconnect (e : Effect) : bool :=
  match e with ESocketDisconnect _ => true | _ => false end.

Definition is_rec_stop (e : Effect) : bool :=
  match e with ERecStop _ => true | _ => false end.

(** The component instance: [useState] cells, [useRef] cells, the objects
    the refs may point to, and the effects so far. *)
Record World := {
  room : string;
  recording : bool;
  transcripts : list TranscriptSegment;
  chapterTitles : JsVal;
  progress : JsVal;
  socketRef : option nat;
  recordRTCRef : option nat;
  sockets : list Socket;
  recorders : list Recorder;
  trace : list Effect;
}.

Definition socketURL : string := "http://localhost:8000".

(** ** Primitive operations *)

Definition log (e : Effect) (w : World) : World :=
  {| room := room w; recording := recording w; transcripts := transcripts w;
     chapterTitles := chapterTitles w; progress := progress w;
     socketRef := socketRef w; recordRTCRef := recordRTCRef w;
     sockets := sockets w; recorders := recorders w;
     trace := trace w ++ [e] |}.

Definition setRecording (b : bool) (w : World) : World :=
  log (ESetRecording b)
  {| room := room w; recording := b; transcripts := transcripts w;
     chapterTitles := chapterTitles w; progress := progress w;
     socketRef := socketRef w; recordRTCRef := recordRTCRef w;
     sockets := sockets w; recorders := recorders w; trace := trace w |}.

(** [setTranscripts(f)]; React also takes a plain value, which is [fun _ => v]. *)
Definition setTranscripts (f : list TranscriptSegment -> list TranscriptSegment)
    (w : World) : World :=
  log (ESetTranscripts (f (transcripts w)))
  {| room := room w; recording := recording w; transcripts := f (transcripts w);
     chapterTitles := chapterTitles w; progress := progress w;
     socketRef := socketRef w; recordRTCRef := recordRTCRef w;
     sockets := sockets w; recorders := recorders w; trace := trace w |}.

Definition setChapterTitles (v : JsVal) (w : World) : World :=
  log (ESetChapterTitles v)
  {| room := room w; recording := recording w; transcripts := transcripts w;
     chapterTitles := v; progress := progress w;
     socketRef := socketRef w; recordRTCRef := recordRTCRef w;
     sockets := sockets w; recorders := recorders w; trace := trace w |}.

Definition setProgress (v : JsVal) (w : World) : World :=
  log (ESetProgress v)
  {| room := room w; recording := recording w; transcripts := transcripts w;
     chapterTitles := chapterTitles w; progress := v;
     socketRef := socketRef w; recordRTCRef := recordRTCRef w;
     sockets := sockets w; recorders := recorders w; trace := trace w |}.

Definition set_socketRef (s : option nat) (w : World) : World :=
  {| room := room w; recording := recording w; transcripts := transcripts w;
     chapterTitles := chapterTitles w; progress := progress w;
     socketRef := s; recordRTCRef := recordRTCRef w;
     sockets := sockets w; recorders := recorders w; trace := trace w |}.

Definition set_recordRTCRef (r : option nat) (w : World) : World :=
  {| room := room w; recording := recording w; transcripts := transcripts w;
     chapterTitles := chapterTitles w; progress := progress w;
     socketRef := socketRef w; recordRTCRef := r;
     sockets := sockets w; recorders := recorders w; trace := trace w |}.

Definition set_sockets (l : list Socket) (w : World) : World :=
  {| room := room w; recording := recording w; transcripts := transcripts w;
     chapterTitles := chapterTitles w; progress := progress w;
     socketRef := socketRef w; recordRTCRef := recordRTCRef w;
     sockets := l; recorders := recorders w; trace := trace w |}.

Definition set_recorders (l : list Recorder) (w : World) : World :=
  {| room := room w; recording := recording w; transcripts := transcripts w;
     chapterTitles := chapterTitles w; progress := progress w;
     socketRef := socketRef w; recordRTCRef := recordRTCRef w;
     sockets := sockets w; recorders := l; trace := trace w |}.

(** [fetch(url, { method: "POST", ..., body: JSON.stringify({ room }) })]:
    the request leaves when [fetch] is called. *)
Definition fetch (url : string) (w : World) : World :=
  log (EFetch url (room w)) w.

Definition console_log (msg arg : string) : World -> World :=
  log (EConsoleLog msg arg).

Definition console_error (msg arg : string) : World -> World :=
  log (EConsoleError msg arg).

Definition toast (title : string) : World -> World := log (EToast title).

(** [io(socketURL, { query: { room }, ... })] *)
Definition io (w : World) : nat * World :=
  let s := length (sockets w) in
  (s, log (ESocketOpen s (room w))
        (set_sockets (sockets w ++ [{| sock_room := room w; sock_connected := true |}]) w)).

(** [socket.disconnect()] *)
Definition disconnect (s : nat) (w : World) : World :=
  log (ESocketDisconnect s)
    (set_sockets (alter (fun k => {| sock_room := sock_room k; sock_connected := false |}) s
                    (sockets w)) w).

(** [socket.emit("audio_data", { room, audio })] *)
Definition emit_audio_data (s : nat) (audio : list Byte.byte) (w : World) : World :=
  log (EEmitAudio s (room w) audio) w.

(** [navigator.mediaDevices.getUserMedia({ audio: true })] *)
Definition getUserMedia : World -> World := log EGetUserMedia.

(** [new RecordRTC(stream, { ... })] *)
Definition newRecordRTC (stream : nat) (w : World) : nat * World :=
  let r := length (recorders w) in
  (r, log (ENewRecordRTC r stream)
        (set_recorders (recorders w ++ [{| rec_stream := stream; rec_status := RecInactive |}]) w)).

Definition set_status (st : RecStatus) (k : Recorder) : Recorder :=
  {| rec_stream := rec_stream k; rec_status := st |}.

(** [recorder.startRecording()] *)
Definition rtc_startRecording (r : nat) (w : World) : World :=
  log (ERecStart r) (set_recorders (alter (set_status RecRecording) r (recorders w)) w).

(** [recorder.stopRecording(callback)]: RecordRTC stops a recorder that is
    recording and only warns otherwise; the callback passed by the component
    has an empty body. *)
Definition rtc_stopRecording (r : nat) (w : World) : World :=
  log (ERecStop r)
    (set_recorders
       (alter (fun k => match rec_status k with
                        | RecRecording => set_status RecStopped k
                        | _ => k
                        end) r (recorders w)) w).

(** ** The mount effect: the socket and its handlers (lines 39-94) *)

(** [socket.on("join_room", ...)]: logs only. *)
Definition on_join_room (data : Payload) (w : World) : World :=
  console_log "Joined room:"
    (match field data "room" with JsStr s => s | _ => "" end) w.

Definition on_partial_result (data : Payload) : World -> World :=
  setTranscripts (fun prev =>
    prev ++ [{| text := field data "text";
                speakerId := js_or (field data "speakerId") (JsStr "?") |}]).

Definition on_final_result (data : Payload) : World -> World :=
  setTranscripts (fun prev =>
    prev ++ [{| text := field data "text";
                speakerId := js_or (field data "speakerId") (JsStr "?") |}]).

Definition on_transcribe_partial (data : Payload) : World -> World :=
  setTranscripts (fun prev =>
    prev ++ [{| text := field data "text";
                speakerId := js_or (field data "speakerId") (JsStr "?") |}]).

Definition on_transcribe_final (data : Payload) : World -> World :=
  setTranscripts (fun prev =>
    prev ++ [{| text := js_or (field data "transcript") (field data "text");
                speakerId := js_or (field data "speakerId") (JsStr "?") |}]).

Definition on_transcription_progress (data : Payload) : World -> World :=
  setProgress (field data "progress").

Definition on_chapter_titles (data : Payload) (w : World) : World :=
  toast "Chapter Titles Generated" (setChapterTitles (field data "titles") w).

(** An event pushed by the backend: its name and its payload. *)
Record ServerEvent := {
  ev_name : string;
  ev_data : Payload;
}.

(** The handler table built by the calls of [socket.on]; an event of another
    name has no handler. *)
Definition socket_on (ev : ServerEvent) (w : World) : World :=
  let data := ev_data ev in
  if String.eqb (ev_name ev) "join_room" then on_join_room data w
  else if String.eqb (ev_name ev) "partial_result" then on_partial_result data w
  else if String.eqb (ev_name ev) "final_result" then on_final_result data w
  else if String.eqb (ev_name ev) "transcribe_partial" then on_transcribe_partial data w
  else if String.eqb (ev_name ev) "transcribe_final" then on_transcribe_final data w
  else if String.eqb (ev_name ev) "transcription_progress" then on_transcription_progress data w
  else if String.eqb (ev_name ev) "chapter_titles" then on_chapter_titles data w
  else w.

(** The body of the effect: open the socket, keep it in [socketRef]. *)
Definition mount (w : World) : nat * World :=
  let '(s, w1) := io w in
  (s, set_socketRef (Some s) w1).

(** The cleanup returned by the effect closes over the socket it opened. *)
Definition cleanup (s : nat) : World -> World := disconnect s.

(** The component before its first effect has run. *)
Definition App (room0 : string) : World :=
  {| room := room0; recording := false; transcripts := [];
     chapterTitles := JsStr ""; progress := JsNum 0;
     socketRef := None; recordRTCRef := None;
     sockets := []; recorders := []; trace := [] |}.

(** ** What arrives between two turns of the component's own code *)

(** [ondataavailable] of the recorder options (lines 131-141): the blob is
    read and sent on whatever socket [socketRef] holds at that time. *)
Definition ondataavailable (audio : list Byte.byte) (w : World) : World :=
  match socketRef w with
  | Some s => emit_audio_data s audio w
  | None => w
  end.

Inductive Arrival :=
| Deliver (s : nat) (ev : ServerEvent)
| Chunk (r : nat) (audio : list Byte.byte).

Definition connected (s : nat) (w : World) : bool :=
  match sockets w !! s with
  | Some k => sock_connected k
  | None => false
  end.

Definition capturing (r : nat) (w : World) : bool :=
  match recorders w !! r with
  | Some k => bool_decide (rec_status k = RecRecording)
  | None => false
  end.

(** Socket.IO calls the handlers of a connected socket only; RecordRTC calls
    [ondataavailable] of a recorder that is recording only. *)
Definition arrive (a : Arrival) (w : World) : World :=
  match a with
  | Deliver s ev => if connected s w then socket_on ev w else w
  | Chunk r audio => if capturing r w then ondataavailable audio w else w
  end.

Definition arrive_all (l : list Arrival) (w : World) : World :=
  fold_left (fun acc a => arrive a acc) l w.

Definition receive_all (evs : list ServerEvent) (w : World) : World :=
  fold_left (fun acc ev => socket_on ev acc) evs w.

(** ** The session operations *)

(** How an awaited [fetch(...)] followed by [resp.json()] ends. *)
Inductive FetchOutcome :=
| FetchJson (json : string)
| FetchRejected (err : string)
| JsonRejected (err : string).

Definition fetch_failed (fo : FetchOutcome) : bool :=
  match fo with FetchJson _ => false | _ => true end.

(** How the awaited [getUserMedia] ends. *)
Inductive MicOutcome :=
| MicGranted (stream : nat)
| MicRejected (err : string).

(** How the promise of an [async] function settles. *)
Inductive Settled :=
| Resolved
| Rejected (err : string).

(** [initTranscription] (lines 97-109).  [during] is what arrives while the
    request is awaited. *)
Definition initTranscription_with (fo : FetchOutcome) (during : list Arrival)
    (w : World) : World :=
  let w1 := fetch (socketURL +:+ "/start_transcription_ct") w in
  let w2 := arrive_all during w1 in
  match fo with
  | FetchJson json => console_log "start_transcription_ct response:" json w2
  | FetchRejected err | JsonRejected err =>
      console_error "Error calling /start_transcription_ct:" err w2
  end.

(** Lines 114-117. *)
Definition startRecording_reset (w : World) : World :=
  setRecording true
    (setChapterTitles (JsStr "")
       (setProgress (JsNum 0)
          (setTranscripts (fun _ => []) w))).

(** [startRecording] (lines 112-144). *)
Definition startRecording_with (fo : FetchOutcome) (mo : MicOutcome)
    (during_fetch during_mic : list Arrival) (w : World) : World * Settled :=
  let w1 := startRecording_reset w in
  let w2 := initTranscription_with fo during_fetch w1 in
  let w3 := arrive_all during_mic (getUserMedia w2) in
  match mo with
  | MicRejected err => (w3, Rejected err)
  | MicGranted stream =>
      let '(r, w4) := newRecordRTC stream w3 in
      let w5 := set_recordRTCRef (Some r) w4 in
      (rtc_startRecording r w5, Resolved)
  end.

(** [stopRecording] (lines 147-170). *)
Definition stopRecording_with (fo : FetchOutcome) (during : list Arrival)
    (w : World) : World :=
  let w1 := setRecording false w in
  let w2 := fetch (socketURL +:+ "/stop_transcription") w1 in
  let w3 := arrive_all during w2 in
  let w4 :=
    match fo with
    | FetchJson json => console_log "stop_transcription response:" json w3
    | FetchRejected err | JsonRejected err =>
        console_error "Error calling /stop_transcription:" err w3
    end in
  match recordRTCRef w4 with
  | Some r => rtc_stopRecording r w4
  | None => w4
  end.

(** The operations with nothing else arriving while they wait. *)
Definition startRecording (fo : FetchOutcome) (mo : MicOutcome) : World -> World * Settled :=
  startRecording_with fo mo [] [].

Definition stopRecording (fo : FetchOutcome) : World -> World :=
  stopRecording_with fo [].

(** The two buttons (lines 178-183): a disabled button does not call its
    [onClick]. *)
Definition click_start (fo : FetchOutcome) (mo : MicOutcome) (w : World) : World :=
  if recording w then w else fst (startRecording fo mo w).

Definition click_stop (fo : FetchOutcome) (w : World) : World :=
  if negb (recording w) then w else stopRecording fo w.

(** ** The component as a machine *)

Inductive Input :=
| Mount
| Cleanup (s : nat)
| Arrive (a : Arrival)
| CallStart (fo : FetchOutcome) (mo : MicOutcome) (during_fetch during_mic : list Arrival)
| CallStop (fo : FetchOutcome) (during : list Arrival).

Definition step (i : Input) (w : World) : World :=
  match i with
  | Mount => snd (mount w)
  | Cleanup s => cleanup s w
  | Arrive a => arrive a w
  | CallStart fo mo d1 d2 => fst (startRecording_with fo mo d1 d2 w)
  | CallStop fo d => stopRecording_with fo d w
  end.

Definition run (l : list Input) (w : World) : World :=
  fold_left (fun acc i => step i acc) l w.

(** The effects performed between [w] and a later [w']. *)
Definition effects_since (w w' : World) : list Effect :=
  drop (length (trace w)) (trace w').

Definition emitted (w : World) : list Effect := filter (fun e => is_emit e = true) (trace w).

Definition no_capture (w : World) : bool :=
  forallb (fun k => negb (bool_decide (rec_status k = RecRecording))) (recorders w).

Definition captures (w : World) : nat :=
  length (filter (fun k => rec_status k = RecRecording) (recorders w)).

(** ** Vocabulary of the statements *)

(** The four events whose handlers write the transcript log. *)
Definition is_transcript_event (ev : ServerEvent) : bool :=
  String.eqb (ev_name ev) "partial_result"
  || String.eqb (ev_name ev) "final_result"
  || String.eqb (ev_name ev) "transcribe_partial"
  || String.eqb (ev_name ev) "transcribe_final".

(** The object literal the handler of a transcript event builds. *)
Definition segment_of (ev : ServerEvent) : TranscriptSegment :=
  {| text := if String.eqb (ev_name ev) "transcribe_final"
             then js_or (field (ev_data ev) "transcript") (field (ev_data ev) "text")
             else field (ev_data ev) "text";
     speakerId := js_or (field (ev_data ev) "speakerId") (JsStr "?") |}.

Definition progress_event (v : JsVal) : ServerEvent :=
  {| ev_name := "transcription_progress"; ev_data := {[ "progress" := v ]} |}.

(** The finality the specification attaches to a segment, read off the kind
    of the event it came from. *)
Inductive Finality := Partial | Final.

Definition event_finality (ev : ServerEvent) : option Finality :=
  if String.eqb (ev_name ev) "partial_result" then Some Partial
  else if String.eqb (ev_name ev) "transcribe_partial" then Some Partial
  else if String.eqb (ev_name ev) "final_result" then Some Final
  else if String.eqb (ev_name ev) "transcribe_final" then Some Final
  else None.

(** Two component instances that show the same aggregate and hold the same
    sockets and recorders. *)
Definition same_view (w1 w2 : World) : Prop :=
  transcripts w1 = transcripts w2
  /\ progress w1 = progress w2
  /\ chapterTitles w1 = chapterTitles w2
  /\ sockets w1 = sockets w2
  /\ recorders w1 = recorders w2.

(** ** The operations cut at their awaits

    The three turns of [startRecording]: up to the request being sent, from
    the settled request to the call of [getUserMedia], and from the settled
    [getUserMedia] to the end. *)
Definition startRecording_enter (w : World) : World :=
  fetch (socketURL +:+ "/start_transcription_ct") (startRecording_reset w).

Definition startRecording_request_mic (fo : FetchOutcome) (w : World) : World :=
  getUserMedia
    match fo with
    | FetchJson json => console_log "start_transcription_ct response:" json w
    | FetchRejected err | JsonRejected err =>
        console_error "Error calling /start_transcription_ct:" err w
    end.

Definition startRecording_finish (mo : MicOutcome) (w : World) : World * Settled :=
  match mo with
  | MicRejected err => (w, Rejected err)
  | MicGranted stream =>
      let '(r, w4) := newRecordRTC stream w in
      let w5 := set_recordRTCRef (Some r) w4 in
      (rtc_startRecording r w5, Resolved)
  end.

(** The component driven through its two buttons: a call reaches the
    operation only when its button is enabled (lines 178-183). *)
Definition ui_step (i : Input) (w : World) : World :=
  match i with
  | CallStart _ _ _ _ => if recording w then w else step i w
  | CallStop _ _ => if negb (recording w) then w else step i w
  | _ => step i w
  end.

Definition ui_run (l : list Input) (w : World) : World :=
  fold_left (fun acc i => ui_step i acc) l w.

(** ** What is rendered (lines 172-219) *)

(** [a ?? b] *)
Definition nullish_or (a b : JsVal) : JsVal :=
  match a with
  | JsUndefined | JsNull => b
  | _ => a
  end.

(** The transcript area: the placeholder, or one box per segment with its
    key, its speaker label and its text. *)
Inductive TranscriptArea :=
| NoSpeechYet
| Boxes (l : list (nat * JsVal * JsVal)).

Record View := {
  start_disabled : bool;
  stop_disabled : bool;
  status : string;
  progress_shown : Z;
  area : TranscriptArea;
  titles_shown : JsVal;
}.

(** The return of [App]; [progress.toFixed(1)] throws unless [progress] is
    a number, and [progress_shown] is the number it is called on. *)
Definition render (w : World) : option View :=
  match progress w with
  | JsNum n =>
      Some {| start_disabled := recording w;
              stop_disabled := negb (recording w);
              status := if recording w then "Listening..." else "Not Recording";
              progress_shown := n;
              area := if Nat.eqb (length (transcripts w)) 0 then NoSpeechYet
                      else Boxes (imap (fun idx seg =>
                                          (idx, nullish_or (speakerId seg) (JsStr "?"), text seg))
                                       (transcripts w));
              titles_shown := chapterTitles w |}
  | _ => None
  end.

(** ** More vocabulary *)

Definition is_toast (e : Effect) : bool :=
  match e with EToast _ => true | _ => false end.

(** The room an effect that leaves the component is tagged with. *)
Definition room_ok (rm : string) (e : Effect) : bool :=
  match e with
  | EFetch _ r | EEmitAudio _ r _ | ESocketOpen _ r => String.eqb r rm
  | _ => true
  end.

(** Both refs, when set, point to an object that exists. *)
Definition refs_ok (w : World) : Prop :=
  (forall s, socketRef w = Some s -> s < length (sockets w))
  /\ (forall r, recordRTCRef w = Some r -> r < length (recorders w)).

(** Every recorder that is recording is the one the recorder reference
    holds, and none is recording while the recording flag is false. *)
Definition one_capture (w : World) : Prop :=
  (forall r, capturing r w = true -> recordRTCRef w = Some r)
  /\ (recording w = false -> no_capture w = true).

(** From [w] to [w'] the room is kept and every effect added that leaves
    the component carries it. *)
Definition tagged_growth (w w' : World) : Prop :=
  room w' = room w
  /\ exists l, trace w' = trace w ++ l /\ forallb (room_ok (room w)) l = true.

(** What [recorder.stopRecording] does to a recorder. *)
Definition stopped (k : Recorder) : Recorder :=
  match rec_status k with
  | RecRecording => set_status RecStopped k
  | _ => k
  end.

Definition chapter_titles_event (v : JsVal) : ServerEvent :=
  {| ev_name := "chapter_titles"; ev_data := {[ "titles" := v ]} |}.

Definition is_chapter_titles (ev : ServerEvent) : bool :=
  String.eqb (ev_name ev) "chapter_titles".

(** ** Basic facts *)

Lemma effects_since_app (w w' : World) (l : list Effect) :
  trace w' = trace w ++ l -> effects_since w w' = l.
Proof.
  intros H. unfold effects_since. rewrite H. apply drop_app_length.
Qed.

Lemma receive_all_app (l1 l2 : list ServerEvent) (w : World) :
  receive_all (l1 ++ l2) w = receive_all l2 (receive_all l1 w).
Proof. apply fold_left_app. Qed.

Lemma arrive_all_app (l1 l2 : list Arrival) (w : World) :
  arrive_all (l1 ++ l2) w = arrive_all l2 (arrive_all l1 w).
Proof. apply fold_left_app. Qed.

Lemma string_eqb_true (a b : string) : String.eqb a b = true -> a = b.
Proof. apply String.eqb_eq. Qed.

(** A transcript event appends the segment its handler builds. *)
Lemma socket_on_transcript (ev : ServerEvent) (w : World) :
  is_transcript_event ev = true ->
  transcripts (socket_on ev w) = transcripts w ++ [segment_of ev].
Proof.
  unfold is_transcript_event, socket_on, segment_of.
  destruct ev as [name data]; simpl.
  destruct (String.eqb name "partial_result") eqn:E1;
    [apply string_eqb_true in E1; subst; reflexivity|].
  destruct (String.eqb name "final_result") eqn:E2;
    [apply string_eqb_true in E2; subst; reflexivity|].
  destruct (String.eqb name "transcribe_partial") eqn:E3;
    [apply string_eqb_true in E3; subst; reflexivity|].
  destruct (String.eqb name "transcribe_final") eqn:E4;
    [apply string_eqb_true in E4; subst; reflexivity|].
  discriminate.
Qed.

(** ** The transcript aggregator *)

(** C4.  Transcript events (partial_result, final_result, transcribe_partial,
    transcribe_final) each append exactly one segment: after N of them the
    log is the old log followed by the N segments in arrival order, so its
    length grows by N (it is N from the log emptied by a start), the entries
    already there keep their place and value, and the i-th new entry is the
    segment of the i-th event. *)
Theorem transcript_log_append_only (evs : list ServerEvent) (w : World) :
  Forall (fun ev => is_transcript_event ev = true) evs ->
  transcripts (receive_all evs w) = transcripts w ++ map segment_of evs
  /\ length (transcripts (receive_all evs w)) = length (transcripts w) + length evs
  /\ length (transcripts (receive_all evs (startRecording_reset w))) = length evs
  /\ (forall i seg, transcripts w !! i = Some seg ->
        transcripts (receive_all evs w) !! i = Some seg)
  /\ (forall i ev, evs !! i = Some ev ->
        transcripts (receive_all evs w) !! (length (transcripts w) + i)
        = Some (segment_of ev)).
Proof.
  intros Hall.
  assert (Happ : forall w0, transcripts (receive_all evs w0)
                            = transcripts w0 ++ map segment_of evs).
  { induction Hall as [|ev evs Hev _ IH]; intros w0; simpl.
    - by rewrite app_nil_r.
    - unfold receive_all in *; simpl. rewrite IH.
      rewrite socket_on_transcript by done. by rewrite <- app_assoc. }
  repeat split.
  - apply Happ.
  - rewrite Happ, length_app, length_map. done.
  - rewrite Happ, length_app, length_map. done.
  - intros i seg Hi. rewrite Happ. by apply lookup_app_l_Some.
  - intros i ev Hi. rewrite Happ, lookup_app_r by lia.
    replace (length (transcripts w) + i - length (transcripts w)) with i by lia.
    by rewrite list_lookup_fmap, Hi.
Qed.

Lemma transcript_log_append_only_witness :
  let evs := [ {| ev_name := "partial_result"; ev_data := {[ "text" := JsStr "hel" ]} |};
               {| ev_name := "final_result";
                  ev_data := <[ "speakerId" := JsStr "A" ]> {[ "text" := JsStr "hello" ]} |} ] in
  transcripts (receive_all evs (App "r"))
  = [ {| text := JsStr "hel"; speakerId := JsStr "?" |};
      {| text := JsStr "hello"; speakerId := JsStr "A" |} ].
Proof.
  intros evs.
  assert (H : Forall (fun ev => is_transcript_event ev = true) evs).
  { repeat constructor. }
  destruct (transcript_log_append_only evs (App "r") H) as [-> _].
  vm_compute. reflexivity.
Defined.

(** C5, as stated, is false: no reading of the stored segments tells a
    segment that came from a partial-kind event from one that came from a
    final-kind event. *)
Lemma finality_not_observable :
  ~ exists finality_of : TranscriptSegment -> Finality,
      forall ev k w seg,
        event_finality ev = Some k ->
        last (transcripts (socket_on ev w)) = Some seg ->
        finality_of seg = k.
Proof.
  intros [f Hf].
  pose (d := ({[ "text" := JsStr "hello" ]} : Payload)).
  pose (seg := {| text := JsStr "hello"; speakerId := JsStr "?" |}).
  assert (H1 : f seg = Partial).
  { apply (Hf {| ev_name := "partial_result"; ev_data := d |} Partial (App "r") seg);
      vm_compute; reflexivity. }
  assert (H2 : f seg = Final).
  { apply (Hf {| ev_name := "final_result"; ev_data := d |} Final (App "r") seg);
      vm_compute; reflexivity. }
  congruence.
Qed.

(** C5, amended.  A stored segment has the two fields text and speakerId and
    nothing else: on the same payload the handlers of partial_result,
    final_result and transcribe_partial do the same thing, and so does the
    handler of transcribe_final when the payload has no transcript field. *)
Theorem segments_carry_no_finality (data : Payload) (w : World) :
  socket_on {| ev_name := "final_result"; ev_data := data |} w
  = socket_on {| ev_name := "partial_result"; ev_data := data |} w
  /\ socket_on {| ev_name := "transcribe_partial"; ev_data := data |} w
     = socket_on {| ev_name := "partial_result"; ev_data := data |} w
  /\ socket_on {| ev_name := "transcribe_final"; ev_data := delete "transcript" data |} w
     = socket_on {| ev_name := "partial_result"; ev_data := delete "transcript" data |} w
  /\ (forall seg seg' : TranscriptSegment,
        text seg = text seg' -> speakerId seg = speakerId seg' -> seg = seg').
Proof.
  repeat split.
  - unfold socket_on; simpl.
    unfold on_transcribe_final, on_partial_result, field.
    rewrite lookup_delete_eq. reflexivity.
  - intros [t s] [t' s']; simpl; congruence.
Qed.

(** C8.  A transcribe_final event without the transcript field and with a
    text field yields a segment whose text is the value of the text field;
    a transcript event of any of the four kinds without the speakerId field
    yields a segment whose speakerId is the sentinel "?".  In both cases the
    segment is appended, not rejected. *)
Theorem malformed_event_fallbacks (ev : ServerEvent) (v : JsVal) (w : World) :
  (ev_name ev = "transcribe_final" ->
   ev_data ev !! "transcript" = None ->
   ev_data ev !! "text" = Some v ->
   exists seg, transcripts (socket_on ev w) = transcripts w ++ [seg] /\ text seg = v)
  /\ (is_transcript_event ev = true ->
      ev_data ev !! "speakerId" = None ->
      exists seg, transcripts (socket_on ev w) = transcripts w ++ [seg]
                  /\ speakerId seg = JsStr "?").
Proof.
  split.
  - intros Hn Ht Hx. exists (segment_of ev). split.
    + apply socket_on_transcript. unfold is_transcript_event. rewrite Hn. reflexivity.
    + unfold segment_of, field. rewrite Hn, Ht, Hx. reflexivity.
  - intros Hk Hs. exists (segment_of ev). split.
    + by apply socket_on_transcript.
    + unfold segment_of, field. rewrite Hs. reflexivity.
Qed.

Lemma malformed_event_fallbacks_witness :
  let ev := {| ev_name := "transcribe_final";
               ev_data := ({[ "text" := JsStr "late words" ]} : Payload) |} in
  (exists seg, transcripts (socket_on ev (App "r")) = transcripts (App "r") ++ [seg]
               /\ text seg = JsStr "late words")
  /\ (exists seg, transcripts (socket_on ev (App "r")) = transcripts (App "r") ++ [seg]
                  /\ speakerId seg = JsStr "?").
Proof.
  intros ev.
  destruct (malformed_event_fallbacks ev (JsStr "late words") (App "r")) as [H1 H2].
  split.
  - apply H1; reflexivity.
  - apply H2; reflexivity.
Defined.

(** C9.  A transcription_progress event stores the received value as it is,
    whatever it is and whatever the progress was (no clamping to [0, 100], no
    monotonicity): after any events followed by a progress event carrying v
    the progress is v, and the values 10, 45, 30 in that order leave 30. *)
Theorem progress_last_write_wins (evs : list ServerEvent) (v : JsVal) (w : World) :
  progress (receive_all (evs ++ [progress_event v]) w) = v
  /\ progress (receive_all (map progress_event [JsNum 10; JsNum 45; JsNum 30]) w)
     = JsNum 30
  /\ progress (receive_all (map progress_event [JsNum 45; JsNum 150; JsNum (-5)]) w)
     = JsNum (-5).
Proof.
  repeat split.
  rewrite receive_all_app. simpl. unfold field.
  rewrite lookup_singleton_eq. reflexivity.
Qed.

(** ** What the handlers and the arrivals leave alone *)

Ltac unfold_handlers :=
  unfold socket_on, on_join_room, on_partial_result, on_final_result,
    on_transcribe_partial, on_transcribe_final, on_transcription_progress,
    on_chapter_titles, ondataavailable, emit_audio_data, console_log,
    console_error, toast.

(** The parts of the component a socket handler never writes. *)
Lemma socket_on_frame (ev : ServerEvent) (w : World) :
  room (socket_on ev w) = room w
  /\ recording (socket_on ev w) = recording w
  /\ socketRef (socket_on ev w) = socketRef w
  /\ recordRTCRef (socket_on ev w) = recordRTCRef w
  /\ sockets (socket_on ev w) = sockets w
  /\ recorders (socket_on ev w) = recorders w
  /\ emitted (socket_on ev w) = emitted w.
Proof.
  unfold_handlers. unfold emitted.
  repeat case_match; simpl; rewrite ?filter_app, ?app_nil_r; tauto.
Qed.

Lemma arrive_frame (a : Arrival) (w : World) :
  room (arrive a w) = room w
  /\ recording (arrive a w) = recording w
  /\ socketRef (arrive a w) = socketRef w
  /\ recordRTCRef (arrive a w) = recordRTCRef w
  /\ sockets (arrive a w) = sockets w
  /\ recorders (arrive a w) = recorders w.
Proof.
  destruct a as [s ev|r audio]; simpl.
  - destruct (connected s w); [|tauto].
    pose proof (socket_on_frame ev w). tauto.
  - destruct (capturing r w); [|tauto].
    unfold_handlers. destruct (socketRef w) as [s|] eqn:Hs; simpl; rewrite ?Hs; tauto.
Qed.

Lemma arrive_all_frame (l : list Arrival) (w : World) :
  room (arrive_all l w) = room w
  /\ recording (arrive_all l w) = recording w
  /\ socketRef (arrive_all l w) = socketRef w
  /\ recordRTCRef (arrive_all l w) = recordRTCRef w
  /\ sockets (arrive_all l w) = sockets w
  /\ recorders (arrive_all l w) = recorders w.
Proof.
  revert w. induction l as [|a l IH]; intros w; [tauto|].
  unfold arrive_all in *; simpl.
  specialize (IH (arrive a w)). pose proof (arrive_frame a w) as Ha.
  destruct IH as (-> & -> & -> & -> & -> & ->). exact Ha.
Qed.

(** With no recorder recording, no chunk can arrive. *)
Lemma no_capture_capturing (r : nat) (w : World) :
  no_capture w = true -> capturing r w = false.
Proof.
  unfold no_capture, capturing. intros H.
  destruct (recorders w !! r) as [k|] eqn:Hk; [|reflexivity].
  rewrite forallb_forall in H.
  apply list_elem_of_lookup_2, list_elem_of_In in Hk.
  apply H in Hk. by apply negb_true_iff in Hk.
Qed.



(** What an arrival does to the aggregate depends on the aggregate, the
    sockets and the recorders only. *)
Lemma arrive_same_view (a : Arrival) (w1 w2 : World) :
  same_view w1 w2 -> same_view (arrive a w1) (arrive a w2).
Proof.
  intros (Ht & Hp & Hc & Hs & Hr). unfold same_view.
  destruct a as [s ev|r audio]; unfold arrive, connected, capturing.
  - rewrite Hs. destruct (sockets w2 !! s) as [k|]; [|done].
    destruct (sock_connected k); [|done].
    unfold_handlers. repeat case_match; simpl; rewrite ?Ht; done.
  - rewrite Hr. destruct (recorders w2 !! r) as [k|]; [|done].
    destruct (bool_decide (rec_status k = RecRecording)); [|done].
    unfold_handlers. repeat case_match; done.
Qed.

Lemma arrive_all_same_view (l : list Arrival) (w1 w2 : World) :
  same_view w1 w2 -> same_view (arrive_all l w1) (arrive_all l w2).
Proof.
  revert w1 w2. induction l as [|a l IH]; intros w1 w2 H; [exact H|].
  unfold arrive_all in *; simpl. by apply IH, arrive_same_view.
Qed.

Ltac since :=
  unfold effects_since; simpl; rewrite <- ?app_assoc; simpl;
  rewrite ?drop_app_length; simpl.

(** ** The session operations *)

(** C3.  Whatever arrived before, the first thing [startRecording] does is
    empty the transcript log, set the progress to 0 and the chapter titles to
    the empty string; these writes come before the first request of the new
    session (the POST of start_transcription_ct), and the three values still
    hold when the operation has run through.  [stopRecording] writes none of
    the three. *)
Theorem start_resets_aggregate (before : list Arrival) (fo fo' : FetchOutcome)
    (mo : MicOutcome) (w : World) :
  let w0 := arrive_all before w in
  let wr := startRecording_reset w0 in
  let w1 := fst (startRecording fo mo w0) in
  let w2 := stopRecording fo' w0 in
  (transcripts wr = [] /\ progress wr = JsNum 0 /\ chapterTitles wr = JsStr "")
  /\ effects_since w0 wr
     = [ESetTranscripts []; ESetProgress (JsNum 0); ESetChapterTitles (JsStr "");
        ESetRecording true]
  /\ forallb (fun e => negb (is_network e)) (effects_since w0 wr) = true
  /\ (exists rest,
        effects_since w0 w1
        = effects_since w0 wr
          ++ EFetch (socketURL +:+ "/start_transcription_ct") (room w0) :: rest)
  /\ (transcripts w1 = [] /\ progress w1 = JsNum 0 /\ chapterTitles w1 = JsStr "")
  /\ (transcripts w2 = transcripts w0 /\ progress w2 = progress w0
      /\ chapterTitles w2 = chapterTitles w0)
  /\ filter (fun e => is_aggregate_write e = true) (effects_since w0 w2) = [].
Proof.
  intros w0 wr w1 w2. subst wr w1 w2. generalize w0 as u. clear. intros u.
  split; [by repeat split|].
  split; [by since|].
  split; [by since|].
  split.
  { destruct fo, mo; since; eexists; reflexivity. }
  split; [by destruct fo, mo|].
  split.
  { unfold stopRecording, stopRecording_with.
    destruct fo'; simpl; destruct (recordRTCRef u); by repeat split. }
  unfold stopRecording, stopRecording_with.
  destruct fo'; simpl; destruct (recordRTCRef u); since; reflexivity.
Qed.







(** The recorder a successful start creates. *)
Lemma start_granted_recorders (fo : FetchOutcome) (stream : nat) (w : World) :
  recorders (fst (startRecording fo (MicGranted stream) w))
  = recorders w ++ [{| rec_stream := stream; rec_status := RecRecording |}].
Proof.
  unfold startRecording, startRecording_with.
  destruct fo; simpl;
    rewrite (alter_app_r_alt _ (recorders w) _ (length (recorders w))) by lia;
    by rewrite Nat.sub_diag.
Qed.

Lemma capturing_lookup (r : nat) (k : Recorder) (w : World) :
  recorders w !! r = Some k -> rec_status k = RecRecording -> capturing r w = true.
Proof. unfold capturing. intros -> ->. reflexivity. Qed.

(** C6.  When a control request fails (the fetch is rejected, or reading the
    response is), the failure is written to the console and the operation
    goes on: [startRecording] still asks for the microphone and, given the
    stream, creates and starts the recorder and resolves; [stopRecording]
    still stops the recorder held by the recorder reference. *)
Theorem control_request_failure_is_not_fatal (fo : FetchOutcome) (stream : nat)
    (w : World) :
  fetch_failed fo = true ->
  let n := length (recorders w) in
  let res := startRecording fo (MicGranted stream) w in
  (snd res = Resolved
   /\ (exists err,
         effects_since w (fst res)
         = [ESetTranscripts []; ESetProgress (JsNum 0); ESetChapterTitles (JsStr "");
            ESetRecording true;
            EFetch (socketURL +:+ "/start_transcription_ct") (room w);
            EConsoleError "Error calling /start_transcription_ct:" err;
            EGetUserMedia; ENewRecordRTC n stream; ERecStart n])
   /\ recordRTCRef (fst res) = Some n
   /\ capturing n (fst res) = true)
  /\ (forall r k,
        recordRTCRef w = Some r ->
        recorders w !! r = Some k ->
        rec_status k = RecRecording ->
        (exists err,
           effects_since w (stopRecording fo w)
           = [ESetRecording false;
              EFetch (socketURL +:+ "/stop_transcription") (room w);
              EConsoleError "Error calling /stop_transcription:" err;
              ERecStop r])
        /\ recorders (stopRecording fo w) !! r = Some (set_status RecStopped k)
        /\ capturing r (stopRecording fo w) = false
        /\ recording (stopRecording fo w) = false).
Proof.
  intros Hfail n res. subst n res. split.
  - split; [|split; [|split]].
    + by destruct fo.
    + destruct fo as [j|err|err]; [discriminate| |]; exists err; by since.
    + by destruct fo.
    + apply (capturing_lookup _ {| rec_stream := stream; rec_status := RecRecording |}); [|done].
      rewrite start_granted_recorders.
      rewrite lookup_app_r by lia. by rewrite Nat.sub_diag.
  - intros r k Href Hk Hst.
    assert (Hrec : recorders (stopRecording fo w) !! r = Some (set_status RecStopped k)).
    { unfold stopRecording, stopRecording_with.
      destruct fo; simpl; rewrite Href; simpl;
        rewrite list_lookup_alter_eq, Hk; simpl; by rewrite Hst. }
    split; [|split; [|split]].
    + unfold stopRecording, stopRecording_with.
      destruct fo as [j|err|err]; [discriminate| |]; exists err;
        simpl; rewrite Href; by since.
    + exact Hrec.
    + unfold capturing. rewrite Hrec. reflexivity.
    + unfold stopRecording, stopRecording_with.
      destruct fo; simpl; by rewrite Href.
Qed.

Lemma control_request_failure_is_not_fatal_witness :
  let w0 := snd (mount (App "r")) in
  let w1 := fst (startRecording (FetchRejected "offline") (MicGranted 7) w0) in
  capturing 0 w1 = true
  /\ capturing 0 (stopRecording (JsonRejected "bad body") w1) = false.
Proof.
  intros w0 w1. split.
  - exact (proj2 (proj2 (proj2 (proj1
      (control_request_failure_is_not_fatal (FetchRejected "offline") 7 w0 eq_refl))))).
  - exact (proj1 (proj2 (proj2 (proj2
      (control_request_failure_is_not_fatal (JsonRejected "bad body") 0 w1 eq_refl)
        0 {| rec_stream := 7; rec_status := RecRecording |} eq_refl eq_refl eq_refl)))).
Defined.

(** Neither session operation touches the sockets. *)
Lemma arrive_all_sockets (l : list Arrival) (w : World) :
  sockets (arrive_all l w) = sockets w.
Proof. apply arrive_all_frame. Qed.

Lemma arrive_all_socketRef (l : list Arrival) (w : World) :
  socketRef (arrive_all l w) = socketRef w.
Proof. apply arrive_all_frame. Qed.

Lemma stopRecording_with_sockets (fo : FetchOutcome) (during : list Arrival) (w : World) :
  sockets (stopRecording_with fo during w) = sockets w
  /\ socketRef (stopRecording_with fo during w) = socketRef w.
Proof.
  unfold stopRecording_with.
  destruct fo; simpl; case_match; simpl;
    rewrite arrive_all_sockets, arrive_all_socketRef; done.
Qed.

Lemma startRecording_with_sockets (fo : FetchOutcome) (mo : MicOutcome)
    (d1 d2 : list Arrival) (w : World) :
  sockets (fst (startRecording_with fo mo d1 d2 w)) = sockets w.
Proof.
  unfold startRecording_with, initTranscription_with.
  destruct fo, mo; simpl; rewrite arrive_all_sockets; simpl;
    rewrite arrive_all_sockets; done.
Qed.

(** A connected socket stays connected through every input but its own
    cleanup. *)
Lemma step_keeps_connection (i : Input) (s : nat) (w : World) :
  connected s w = true -> i <> Cleanup s -> connected s (step i w) = true.
Proof.
  unfold connected. intros Hc Hi.
  destruct i as [|s'|a|fo mo d1 d2|fo d]; simpl.
  - destruct (sockets w !! s) as [k|] eqn:Hk; [|discriminate].
    by rewrite (lookup_app_l_Some _ _ _ _ Hk).
  - rewrite list_lookup_alter_ne by congruence. done.
  - pose proof (arrive_frame a w) as (_ & _ & _ & _ & -> & _). done.
  - rewrite startRecording_with_sockets. done.
  - pose proof (stopRecording_with_sockets fo d w) as [-> _]. done.
Qed.

Lemma run_keeps_connection (l : list Input) (s : nat) (w : World) :
  connected s w = true ->
  Forall (fun i => i <> Cleanup s) l ->
  connected s (run l w) = true.
Proof.
  intros Hc Hl. revert w Hc.
  induction Hl as [|i l Hi _ IH]; intros w Hc; [exact Hc|].
  unfold run in *; simpl. by apply IH, step_keeps_connection.
Qed.

(** Events handled while [stopRecording] waits for its request are
    aggregated as if it were not running. *)
Lemma stopRecording_with_aggregate (fo : FetchOutcome) (during : list Arrival) (w : World) :
  transcripts (stopRecording_with fo during w) = transcripts (arrive_all during w)
  /\ progress (stopRecording_with fo during w) = progress (arrive_all during w)
  /\ chapterTitles (stopRecording_with fo during w) = chapterTitles (arrive_all during w).
Proof.
  unfold stopRecording_with.
  set (u := fetch _ (setRecording false w)).
  assert (Hv : same_view u w) by (by repeat split).
  apply (arrive_all_same_view during) in Hv. destruct Hv as (Ht & Hp & Hc & _).
  destruct fo; simpl; case_match; simpl; by rewrite Ht, Hp, Hc.
Qed.

(** C7.  [stopRecording] does not disconnect the socket and writes neither
    the transcript log nor the progress nor the chapter titles: the sockets
    and the three values are the same after it as before (and what arrives
    while it waits for its request is aggregated as without it), a socket
    that was connected is still connected, an event arriving on it
    afterwards is handled as before (a transcript event is appended to the
    log), and the socket stays connected through every later input except
    the cleanup of the effect that opened it, which disconnects it. *)
Theorem stop_keeps_channel_and_aggregate (fo : FetchOutcome) (s : nat)
    (ev : ServerEvent) (during : list Arrival) (l : list Input) (w : World) :
  connected s w = true ->
  Forall (fun i => i <> Cleanup s) l ->
  let w' := stopRecording fo w in
  (sockets w' = sockets w /\ socketRef w' = socketRef w)
  /\ (transcripts w' = transcripts w /\ progress w' = progress w
      /\ chapterTitles w' = chapterTitles w)
  /\ (transcripts (stopRecording_with fo during w) = transcripts (arrive_all during w)
      /\ progress (stopRecording_with fo during w) = progress (arrive_all during w)
      /\ chapterTitles (stopRecording_with fo during w)
         = chapterTitles (arrive_all during w))
  /\ filter (fun e => is_disconnect e = true) (effects_since w w') = []
  /\ connected s w' = true
  /\ arrive (Deliver s ev) w' = socket_on ev w'
  /\ (is_transcript_event ev = true ->
      transcripts (arrive (Deliver s ev) w') = transcripts w ++ [segment_of ev])
  /\ connected s (run l w') = true
  /\ connected s (step (Cleanup s) (run l w')) = false.
Proof.
  intros Hc Hl w'.
  assert (Hsock : sockets w' = sockets w /\ socketRef w' = socketRef w)
    by apply stopRecording_with_sockets.
  assert (Hagg : transcripts w' = transcripts w /\ progress w' = progress w
                 /\ chapterTitles w' = chapterTitles w)
    by apply (stopRecording_with_aggregate fo [] w).
  assert (Hc' : connected s w' = true).
  { unfold connected in *. by rewrite (proj1 Hsock). }
  split; [exact Hsock|]. split; [exact Hagg|].
  split; [apply stopRecording_with_aggregate|].
  split.
  { subst w'. unfold stopRecording, stopRecording_with.
    destruct fo; simpl; destruct (recordRTCRef w); since; reflexivity. }
  split; [exact Hc'|].
  split; [simpl; by rewrite Hc'|].
  split.
  { intros Hev. simpl. rewrite Hc', socket_on_transcript by done.
    by rewrite (proj1 Hagg). }
  split; [by apply run_keeps_connection|].
  unfold connected in *. simpl. rewrite list_lookup_alter_eq.
  destruct (sockets (run l w') !! s); done.
Qed.

Lemma stop_keeps_channel_and_aggregate_witness :
  let w0 := snd (mount (App "r")) in
  let w1 := fst (startRecording (FetchJson "{}") (MicGranted 7) w0) in
  let ev := {| ev_name := "final_result";
               ev_data := <[ "speakerId" := JsStr "A" ]> {[ "text" := JsStr "hello" ]} |} in
  let later := [Arrive (Deliver 0 ev); CallStart (FetchJson "{}") (MicGranted 8) [] [];
                CallStop (FetchRejected "offline") []; Mount; Cleanup 1] in
  let w2 := stopRecording (FetchJson "{}") w1 in
  connected 0 w2 = true
  /\ transcripts (arrive (Deliver 0 ev) w2) = transcripts w1 ++ [segment_of ev]
  /\ connected 0 (run later w2) = true
  /\ connected 0 (step (Cleanup 0) (run later w2)) = false.
Proof.
  intros w0 w1 ev later w2.
  assert (Hl : Forall (fun i => i <> Cleanup 0) later) by (repeat constructor; discriminate).
  pose proof (stop_keeps_channel_and_aggregate (FetchJson "{}") 0 ev [] later w1 eq_refl Hl)
    as (_ & _ & _ & _ & H4 & _ & H6 & H7 & H8).
  exact (conj H4 (conj (H6 eq_refl) (conj H7 H8))).
Defined.

(** C10.  [startRecording] does not look at the recording flag.  Called
    while a session is active (flag true, the recorder reference holding a
    recorder that is recording) and given a stream, it empties the transcript
    log, zeroes the progress, clears the chapter titles and puts a new
    recorder in the recorder reference; the previous recorder is not stopped
    and keeps recording, so two captures run at once, and a later
    [stopRecording] stops the new recorder only.  The Start button alone
    keeps this from happening: it is disabled while the flag is true. *)
Theorem start_while_active_leaks_recorder (fo fo' : FetchOutcome) (stream : nat)
    (w : World) (r : nat) (k : Recorder) :
  recording w = true ->
  recordRTCRef w = Some r ->
  recorders w !! r = Some k ->
  rec_status k = RecRecording ->
  let res := startRecording fo (MicGranted stream) w in
  let w' := fst res in
  let n := length (recorders w) in
  snd res = Resolved
  /\ (transcripts w' = [] /\ progress w' = JsNum 0 /\ chapterTitles w' = JsStr "")
  /\ (recordRTCRef w' = Some n /\ n <> r)
  /\ recorders w' !! r = Some k
  /\ filter (fun e => is_rec_stop e = true) (effects_since w w') = []
  /\ (capturing r w' = true /\ capturing n w' = true)
  /\ (captures w' = S (captures w) /\ 2 <= captures w')
  /\ (capturing r (stopRecording fo' w') = true
      /\ capturing n (stopRecording fo' w') = false)
  /\ click_start fo (MicGranted stream) w = w.
Proof.
  intros Hrec Href Hk Hst res w' n. subst res w' n.
  assert (Hlt : r < length (recorders w)) by (by eapply lookup_lt_Some).
  pose proof (start_granted_recorders fo stream w) as Hrs.
  assert (Hres : snd (startRecording fo (MicGranted stream) w) = Resolved)
    by (by destruct fo).
  assert (Hagg : transcripts (fst (startRecording fo (MicGranted stream) w)) = []
                 /\ progress (fst (startRecording fo (MicGranted stream) w)) = JsNum 0
                 /\ chapterTitles (fst (startRecording fo (MicGranted stream) w)) = JsStr "")
    by (by destruct fo).
  assert (Href' : recordRTCRef (fst (startRecording fo (MicGranted stream) w))
                  = Some (length (recorders w))) by (by destruct fo).
  assert (Hnostop : filter (fun e => is_rec_stop e = true)
                      (effects_since w (fst (startRecording fo (MicGranted stream) w))) = [])
    by (destruct fo; since; reflexivity).
  remember (fst (startRecording fo (MicGranted stream) w)) as w' eqn:Hw'.
  clear Hw'.
  set (new := {| rec_stream := stream; rec_status := RecRecording |}) in *.
  assert (Hold : recorders w' !! r = Some k).
  { rewrite Hrs. by apply lookup_app_l_Some. }
  assert (Hnew : recorders w' !! length (recorders w) = Some new).
  { rewrite Hrs, lookup_app_r by lia. by rewrite Nat.sub_diag. }
  assert (Hcap : captures w' = S (captures w)).
  { unfold captures. rewrite Hrs, filter_app, length_app.
    rewrite filter_cons_True by done. simpl. lia. }
  assert (Hpos : 1 <= captures w).
  { unfold captures.
    apply list_elem_of_lookup_2 in Hk.
    assert (Hin : k ∈ filter (fun x => rec_status x = RecRecording) (recorders w))
      by (by apply list_elem_of_filter).
    destruct (filter _ (recorders w)); [by apply not_elem_of_nil in Hin | simpl; lia]. }
  assert (Hstop : recorders (stopRecording fo' w')
                  = alter (fun x => match rec_status x with
                                    | RecRecording => set_status RecStopped x
                                    | _ => x
                                    end) (length (recorders w)) (recorders w')).
  { unfold stopRecording, stopRecording_with.
    destruct fo'; simpl; rewrite Href'; reflexivity. }
  split; [done|].
  split; [done|].
  split; [split; [done | lia]|].
  split; [done|].
  split; [done|].
  split; [split; eapply capturing_lookup; eauto|].
  split; [split; lia|].
  split.
  - split; unfold capturing; rewrite Hstop.
    + rewrite list_lookup_alter_ne by lia. rewrite Hold.
      by apply bool_decide_eq_true.
    + rewrite list_lookup_alter_eq, Hnew. reflexivity.
  - unfold click_start. by rewrite Hrec.
Qed.

Lemma start_while_active_leaks_recorder_witness :
  let w0 := snd (mount (App "r")) in
  let w1 := fst (startRecording (FetchJson "{}") (MicGranted 7) w0) in
  let w2 := fst (startRecording (FetchJson "{}") (MicGranted 8) w1) in
  recordRTCRef w1 = Some 0
  /\ recordRTCRef w2 = Some 1
  /\ captures w2 = 2
  /\ capturing 0 (stopRecording (FetchJson "{}") w2) = true.
Proof.
  intros w0 w1 w2.
  pose proof (start_while_active_leaks_recorder (FetchJson "{}") (FetchJson "{}") 8 w1 0
                {| rec_stream := 7; rec_status := RecRecording |}
                eq_refl eq_refl eq_refl eq_refl)
    as (_ & _ & [H3 _] & _ & _ & _ & [H7 _] & [H8 _] & _).
  exact (conj eq_refl (conj H3 (conj H7 H8))).
Defined.

(** ** A whole session

    Start, two chunks, a partial and a final result, a progress update, the
    chapter titles, stop: the state the component ends in and what it sent. *)
Example happy_path :
  let ev n d := Arrive (Deliver 0 {| ev_name := n; ev_data := d |}) in
  let w := run [ Mount;
                 CallStart (FetchJson "{}") (MicGranted 1) [] [];
                 Arrive (Chunk 0 [Byte.x01]); Arrive (Chunk 0 [Byte.x02]);
                 ev "partial_result" {[ "text" := JsStr "hel" ]};
                 ev "final_result"
                    (<[ "speakerId" := JsStr "A" ]> {[ "text" := JsStr "hello" ]});
                 ev "transcription_progress" {[ "progress" := JsNum 100 ]};
                 ev "chapter_titles" {[ "titles" := JsStr "Intro" ]};
                 CallStop (FetchJson "{}") [] ] (App "r") in
  recording w = false
  /\ transcripts w = [ {| text := JsStr "hel"; speakerId := JsStr "?" |};
                       {| text := JsStr "hello"; speakerId := JsStr "A" |} ]
  /\ progress w = JsNum 100
  /\ chapterTitles w = JsStr "Intro"
  /\ emitted w = [EEmitAudio 0 "r" [Byte.x01]; EEmitAudio 0 "r" [Byte.x02]]
  /\ capturing 0 w = false
  /\ connected 0 w = true.
Proof. vm_compute. repeat split. Qed.

(** ** Further properties of the handlers *)

Lemma socket_on_slices (ev : ServerEvent) (w : World) :
  (is_transcript_event ev = false -> transcripts (socket_on ev w) = transcripts w)
  /\ (ev_name ev <> "transcription_progress" -> progress (socket_on ev w) = progress w)
  /\ (ev_name ev <> "chapter_titles" -> chapterTitles (socket_on ev w) = chapterTitles w)
  /\ (ev_name ev = "join_room" ->
      exists txt, socket_on ev w = log (EConsoleLog "Joined room:" txt) w)
  /\ (ev_name ev <> "join_room" -> is_transcript_event ev = false ->
      ev_name ev <> "transcription_progress" -> ev_name ev <> "chapter_titles" ->
      socket_on ev w = w).
Proof.
  destruct ev as [name data]. unfold is_transcript_event, socket_on. simpl.
  destruct (String.eqb_spec name "join_room") as [->|Hj].
  { simpl. repeat split; try done. intros _. eexists. reflexivity. }
  destruct (String.eqb_spec name "partial_result") as [->|H1].
  { simpl. repeat split; done. }
  destruct (String.eqb_spec name "final_result") as [->|H2].
  { simpl. repeat split; done. }
  destruct (String.eqb_spec name "transcribe_partial") as [->|H3].
  { simpl. repeat split; done. }
  destruct (String.eqb_spec name "transcribe_final") as [->|H4].
  { simpl. repeat split; done. }
  destruct (String.eqb_spec name "transcription_progress") as [->|H5].
  { simpl. repeat split; done. }
  destruct (String.eqb_spec name "chapter_titles") as [->|H6].
  { simpl. repeat split; done. }
  simpl. repeat split; done.
Qed.

(** Each slice of the aggregate has its own events: the log is written by
    the four transcript events only, the progress by transcription_progress
    only, the chapter titles by chapter_titles only; an event of a name
    without a handler changes nothing at all, and join_room only writes to
    the console. *)
Theorem handlers_write_their_own_slice (ev : ServerEvent) (w : World) :
  (is_transcript_event ev = false -> transcripts (socket_on ev w) = transcripts w)
  /\ (ev_name ev <> "transcription_progress" -> progress (socket_on ev w) = progress w)
  /\ (ev_name ev <> "chapter_titles" -> chapterTitles (socket_on ev w) = chapterTitles w)
  /\ (ev_name ev = "join_room" ->
      exists txt, socket_on ev w = log (EConsoleLog "Joined room:" txt) w)
  /\ (ev_name ev <> "join_room" -> is_transcript_event ev = false ->
      ev_name ev <> "transcription_progress" -> ev_name ev <> "chapter_titles" ->
      socket_on ev w = w).
Proof. exact (socket_on_slices ev w). Qed.

Lemma handlers_write_their_own_slice_witness :
  let w := App "r" in
  socket_on {| ev_name := "speaker_changed"; ev_data := {[ "text" := JsStr "x" ]} |} w = w
  /\ progress (socket_on {| ev_name := "chapter_titles";
                            ev_data := {[ "progress" := JsNum 50 ]} |} w) = JsNum 0.
Proof.
  intros w. split.
  - apply (handlers_write_their_own_slice
             {| ev_name := "speaker_changed"; ev_data := {[ "text" := JsStr "x" ]} |} w);
      (discriminate || reflexivity).
  - apply (handlers_write_their_own_slice
             {| ev_name := "chapter_titles"; ev_data := {[ "progress" := JsNum 50 ]} |} w).
    discriminate.
Defined.

Lemma toasts_socket_on (ev : ServerEvent) (w : World) :
  length (filter (fun e => is_toast e = true) (trace (socket_on ev w)))
  = length (filter (fun e => is_toast e = true) (trace w))
    + (if is_chapter_titles ev then 1 else 0).
Proof.
  destruct ev as [name data]. unfold is_chapter_titles, socket_on. simpl.
  destruct (String.eqb_spec name "chapter_titles") as [->|Hn]; simpl.
  - rewrite !filter_app, !length_app. simpl. lia.
  - unfold_handlers.
    repeat case_match; simpl; rewrite ?filter_app, ?length_app; simpl; lia.
Qed.

(** The chapter titles are the value of the last chapter_titles event,
    whatever came before, and every chapter_titles event raises exactly one
    toast: no other event raises any. *)
Theorem chapter_titles_last_write_one_toast_each (evs : list ServerEvent) (v : JsVal)
    (w : World) :
  chapterTitles (receive_all (evs ++ [chapter_titles_event v]) w) = v
  /\ length (filter (fun e => is_toast e = true) (trace (receive_all evs w)))
     = length (filter (fun e => is_toast e = true) (trace w))
       + length (filter (fun ev => is_chapter_titles ev = true) evs).
Proof.
  split.
  - rewrite receive_all_app. simpl. unfold field.
    rewrite lookup_singleton_eq. reflexivity.
  - revert w. induction evs as [|ev evs IH]; intros w; [simpl; lia|].
    unfold receive_all in *. simpl. rewrite IH, toasts_socket_on.
    destruct (is_chapter_titles ev) eqn:E.
    + rewrite filter_cons_True by done. simpl. lia.
    + rewrite filter_cons_False by (by rewrite E). lia.
Qed.

(** What [||] does to the fields that are present: a speakerId that is
    falsy (the empty string, 0, false, null) is replaced by "?" like an
    absent one, and any other is stored as it is; a transcribe_final whose
    transcript is falsy takes its text field, and when that is absent too the
    segment is still appended, with an undefined text. *)
Theorem falsy_fields_fall_back (ev : ServerEvent) (w : World) :
  is_transcript_event ev = true ->
  exists seg,
    transcripts (socket_on ev w) = transcripts w ++ [seg]
    /\ speakerId seg = (if truthy (field (ev_data ev) "speakerId")
                        then field (ev_data ev) "speakerId" else JsStr "?")
    /\ truthy (speakerId seg) = true
    /\ (ev_name ev <> "transcribe_final" -> text seg = field (ev_data ev) "text")
    /\ (ev_name ev = "transcribe_final" ->
        text seg = (if truthy (field (ev_data ev) "transcript")
                    then field (ev_data ev) "transcript" else field (ev_data ev) "text"))
    /\ (ev_data ev !! "transcript" = None -> ev_data ev !! "text" = None ->
        text seg = JsUndefined).
Proof.
  intros Hev. exists (segment_of ev).
  split; [by apply socket_on_transcript|].
  unfold segment_of, js_or, field. simpl.
  split; [done|]. split; [by case_match|].
  split.
  { intros Hn. apply String.eqb_neq in Hn. by rewrite Hn. }
  split.
  { by intros ->. }
  intros -> ->. simpl. by case_match.
Qed.

Lemma falsy_fields_fall_back_witness :
  exists seg,
    transcripts (socket_on {| ev_name := "final_result";
                              ev_data := <[ "speakerId" := JsNum 0 ]>
                                           {[ "text" := JsStr "hi" ]} |} (App "r"))
    = [seg]
    /\ speakerId seg = JsStr "?".
Proof.
  destruct (falsy_fields_fall_back
              {| ev_name := "final_result";
                 ev_data := <[ "speakerId" := JsNum 0 ]> {[ "text" := JsStr "hi" ]} |}
              (App "r") eq_refl) as (seg & H1 & H2 & _).
  exists seg. split; [exact H1 | exact H2].
Defined.

(** ** Chunks and sockets *)

Lemma arrive_chunk (r s : nat) (audio : list Byte.byte) (w : World) :
  capturing r w = true -> socketRef w = Some s ->
  arrive (Chunk r audio) w = log (EEmitAudio s (room w) audio) w.
Proof. intros Hc Hs. simpl. rewrite Hc. unfold ondataavailable. by rewrite Hs. Qed.



(** A chunk goes to the socket the socket reference holds when the chunk is
    handled, not to the one that was there when the recorder was started:
    after the effect has run again the chunks of a running recorder are
    emitted on the new socket.  The cleanup of the effect neither stops the
    recorder nor empties the socket reference, so after it alone the chunks
    are still emitted, on the disconnected socket. *)
Theorem chunks_follow_the_socket_reference (r s : nat) (audio : list Byte.byte)
    (w : World) :
  capturing r w = true ->
  socketRef w = Some s ->
  let w1 := snd (mount w) in
  let w2 := cleanup s w in
  (fst (mount w) = length (sockets w)
   /\ capturing r w1 = true
   /\ effects_since w1 (arrive (Chunk r audio) w1)
      = [EEmitAudio (length (sockets w)) (room w) audio])
  /\ (connected s w2 = false
      /\ capturing r w2 = true
      /\ socketRef w2 = Some s
      /\ effects_since w2 (arrive (Chunk r audio) w2) = [EEmitAudio s (room w) audio]).
Proof.
  intros Hc Hs w1 w2. split.
  - split; [done|]. split; [exact Hc|].
    assert (Hc1 : capturing r w1 = true) by exact Hc.
    rewrite (arrive_chunk r (length (sockets w)) audio w1 Hc1 eq_refl).
    by apply effects_since_app.
  - assert (Hc2 : capturing r w2 = true) by exact Hc.
    assert (Hs2 : socketRef w2 = Some s) by exact Hs.
    split.
    { unfold connected. simpl. rewrite list_lookup_alter_eq.
      by destruct (sockets w !! s). }
    split; [done|]. split; [done|].
    rewrite (arrive_chunk r s audio w2 Hc2 Hs2). by apply effects_since_app.
Qed.

Lemma chunks_follow_the_socket_reference_witness :
  let w := fst (startRecording (FetchJson "{}") (MicGranted 1) (snd (mount (App "r")))) in
  effects_since (snd (mount w)) (arrive (Chunk 0 [Byte.x01]) (snd (mount w)))
  = [EEmitAudio 1 "r" [Byte.x01]]
  /\ connected 0 (cleanup 0 w) = false
  /\ effects_since (cleanup 0 w) (arrive (Chunk 0 [Byte.x01]) (cleanup 0 w))
     = [EEmitAudio 0 "r" [Byte.x01]].
Proof.
  intros w.
  pose proof (chunks_follow_the_socket_reference 0 0 [Byte.x01] w eq_refl eq_refl)
    as ((_ & _ & H3) & (H4 & _ & _ & H7)).
  exact (conj H3 (conj H4 H7)).
Defined.

(** ** The operations turn by turn *)

(** [startRecording] is its three turns, with the arrivals in between. *)
Lemma startRecording_with_turns (fo : FetchOutcome) (mo : MicOutcome)
    (d1 d2 : list Arrival) (w : World) :
  startRecording_with fo mo d1 d2 w
  = startRecording_finish mo
      (arrive_all d2 (startRecording_request_mic fo (arrive_all d1 (startRecording_enter w)))).
Proof. destruct fo, mo; reflexivity. Qed.

Lemma finish_granted_recorders (stream : nat) (u : World) :
  recorders (fst (startRecording_finish (MicGranted stream) u))
  = recorders u ++ [{| rec_stream := stream; rec_status := RecRecording |}].
Proof.
  simpl. rewrite (alter_app_r_alt _ (recorders u) _ (length (recorders u))) by lia.
  by rewrite Nat.sub_diag.
Qed.

Lemma arrive_all_recorders (l : list Arrival) (w : World) :
  recorders (arrive_all l w) = recorders w.
Proof. apply arrive_all_frame. Qed.

Lemma arrive_all_recordRTCRef (l : list Arrival) (w : World) :
  recordRTCRef (arrive_all l w) = recordRTCRef w.
Proof. apply arrive_all_frame. Qed.

Lemma arrive_all_recording (l : list Arrival) (w : World) :
  recording (arrive_all l w) = recording w.
Proof. apply arrive_all_frame. Qed.

Lemma arrive_all_room (l : list Arrival) (w : World) :
  room (arrive_all l w) = room w.
Proof. apply arrive_all_frame. Qed.

(** The state a start leaves, whatever arrives while it waits. *)
Lemma startRecording_with_state (fo : FetchOutcome) (mo : MicOutcome)
    (d1 d2 : list Arrival) (w : World) :
  let w' := fst (startRecording_with fo mo d1 d2 w) in
  room w' = room w
  /\ recording w' = true
  /\ sockets w' = sockets w
  /\ socketRef w' = socketRef w
  /\ match mo with
     | MicRejected _ => recorders w' = recorders w /\ recordRTCRef w' = recordRTCRef w
     | MicGranted stream =>
         recorders w' = recorders w ++ [{| rec_stream := stream; rec_status := RecRecording |}]
         /\ recordRTCRef w' = Some (length (recorders w))
     end.
Proof.
  intros w'. subst w'. rewrite startRecording_with_turns.
  destruct mo as [stream|err].
  - rewrite finish_granted_recorders.
    unfold startRecording_request_mic, startRecording_enter.
    destruct fo; simpl;
      rewrite ?arrive_all_recorders, ?arrive_all_recording,
        ?arrive_all_room, ?arrive_all_sockets, ?arrive_all_socketRef; simpl;
      rewrite ?arrive_all_recorders, ?arrive_all_recording,
        ?arrive_all_room, ?arrive_all_sockets, ?arrive_all_socketRef; simpl; done.
  - unfold startRecording_request_mic, startRecording_enter.
    destruct fo; simpl;
      rewrite ?arrive_all_recorders, ?arrive_all_recording, ?arrive_all_recordRTCRef,
        ?arrive_all_room, ?arrive_all_sockets, ?arrive_all_socketRef; simpl;
      rewrite ?arrive_all_recorders, ?arrive_all_recording, ?arrive_all_recordRTCRef,
        ?arrive_all_room, ?arrive_all_sockets, ?arrive_all_socketRef; simpl; done.
Qed.

(** The state a stop leaves, whatever arrives while it waits. *)
Lemma stopRecording_with_state (fo : FetchOutcome) (d : list Arrival) (w : World) :
  let w' := stopRecording_with fo d w in
  room w' = room w
  /\ recording w' = false
  /\ sockets w' = sockets w
  /\ socketRef w' = socketRef w
  /\ recordRTCRef w' = recordRTCRef w
  /\ recorders w' = match recordRTCRef w with
                    | Some r => alter stopped r (recorders w)
                    | None => recorders w
                    end.
Proof.
  intros w'. subst w'. unfold stopRecording_with.
  destruct fo; simpl; rewrite arrive_all_recordRTCRef; simpl;
    destruct (recordRTCRef w) as [r|] eqn:Hr; simpl;
    rewrite ?arrive_all_recorders, ?arrive_all_recording, ?arrive_all_recordRTCRef,
      ?arrive_all_room, ?arrive_all_sockets, ?arrive_all_socketRef; simpl;
    rewrite ?Hr; done.
Qed.

Lemma no_capture_intro (w : World) :
  (forall r, capturing r w = false) -> no_capture w = true.
Proof.
  intros H. unfold no_capture. apply forallb_forall. intros k Hk.
  apply list_elem_of_In, list_elem_of_lookup in Hk. destruct Hk as [r Hr].
  specialize (H r). unfold capturing in H. rewrite Hr in H.
  by rewrite H.
Qed.

Lemma stopped_not_recording (k : Recorder) : rec_status (stopped k) <> RecRecording.
Proof. unfold stopped. destruct (rec_status k) eqn:E; simpl; congruence. Qed.

(** ** A stop while the start waits for the microphone *)

(** The Stop button is enabled as soon as a start has begun.  A stop that
    runs through while the start still waits for the microphone finds no new
    recorder to stop; when the stream is then granted the start goes on,
    creates the recorder and starts it.  The component is left capturing and
    emitting chunks with the recording flag false: it shows "Not Recording"
    and its Stop button is disabled, so a click on it does nothing. *)
Theorem stop_while_microphone_is_awaited (fo fo' fo'' : FetchOutcome) (stream s : nat)
    (audio : list Byte.byte) (w : World) :
  socketRef w = Some s ->
  let w1 := startRecording_request_mic fo (startRecording_enter w) in
  let w2 := click_stop fo' w1 in
  let res := startRecording_finish (MicGranted stream) w2 in
  let n := length (recorders w) in
  recording w1 = true
  /\ w2 = stopRecording fo' w1
  /\ snd res = Resolved
  /\ recording (fst res) = false
  /\ recordRTCRef (fst res) = Some n
  /\ capturing n (fst res) = true
  /\ click_stop fo'' (fst res) = fst res
  /\ status <$> render (fst res) = Some "Not Recording"
  /\ stop_disabled <$> render (fst res) = Some true
  /\ effects_since (fst res) (arrive (Chunk n audio) (fst res))
     = [EEmitAudio s (room w) audio].
Proof.
  intros Hs w1 w2 res n.
  assert (H1 : recording w1 = true) by (subst w1; by destruct fo).
  assert (H2 : w2 = stopRecording fo' w1).
  { subst w2. unfold click_stop. by rewrite H1. }
  pose proof (stopRecording_with_state fo' [] w1) as (Hroom & Hrec & _ & Hsock & Href & Hrs).
  fold (stopRecording fo' w1) in *. rewrite <- H2 in *.
  assert (Hlen : length (recorders w2) = n).
  { assert (Hr1 : recorders w1 = recorders w) by (subst w1; by destruct fo).
    rewrite Hrs, Hr1. subst n.
    destruct (recordRTCRef w1); by rewrite ?length_alter. }
  assert (Hp : progress w2 = JsNum 0).
  { rewrite H2. unfold stopRecording.
    rewrite (proj1 (proj2 (stopRecording_with_aggregate fo' [] w1))).
    subst w1. by destruct fo. }
  assert (Hnew : recorders (fst res) !! n
                 = Some {| rec_stream := stream; rec_status := RecRecording |}).
  { subst res. rewrite finish_granted_recorders, lookup_app_r by lia.
    by rewrite Hlen, Nat.sub_diag. }
  assert (Hcap : capturing n (fst res) = true).
  { unfold capturing. by rewrite Hnew. }
  assert (Hrec' : recording (fst res) = false) by exact Hrec.
  assert (Href' : recordRTCRef (fst res) = Some n).
  { subst res. simpl. by rewrite Hlen. }
  assert (Hs' : socketRef (fst res) = Some s).
  { subst res. simpl. rewrite Hsock. subst w1. by destruct fo. }
  assert (Hroom' : room (fst res) = room w).
  { subst res. simpl. rewrite Hroom. subst w1. by destruct fo. }
  assert (Hp' : progress (fst res) = JsNum 0) by exact Hp.
  split; [done|]. split; [done|]. split; [done|]. split; [done|].
  split; [done|]. split; [done|].
  split; [unfold click_stop; by rewrite Hrec'|].
  split; [unfold render; by rewrite Hp', Hrec'|].
  split; [unfold render; by rewrite Hp', Hrec'|].
  rewrite (arrive_chunk n s audio (fst res) Hcap Hs'), Hroom'.
  by apply effects_since_app.
Qed.

Lemma stop_while_microphone_is_awaited_witness :
  let w1 := startRecording_request_mic (FetchJson "{}")
              (startRecording_enter (snd (mount (App "r")))) in
  let res := startRecording_finish (MicGranted 1) (click_stop (FetchJson "{}") w1) in
  recording (fst res) = false
  /\ capturing 0 (fst res) = true
  /\ effects_since (fst res) (arrive (Chunk 0 [Byte.x01]) (fst res))
     = [EEmitAudio 0 "r" [Byte.x01]].
Proof.
  intros w1 res.
  pose proof (stop_while_microphone_is_awaited (FetchJson "{}") (FetchJson "{}")
                (FetchJson "{}") 1 0 [Byte.x01] (snd (mount (App "r"))) eq_refl)
    as (_ & _ & _ & H4 & _ & H6 & _ & _ & _ & H10).
  exact (conj H4 (conj H6 H10)).
Defined.

(** ** The component driven through its buttons *)

Lemma one_capture_ext (w w' : World) :
  recorders w' = recorders w -> recordRTCRef w' = recordRTCRef w ->
  recording w' = recording w -> one_capture w -> one_capture w'.
Proof.
  unfold one_capture, capturing, no_capture. intros -> -> ->. done.
Qed.

Lemma ui_step_one_capture (i : Input) (w : World) :
  one_capture w -> one_capture (ui_step i w).
Proof.
  intros Hinv. destruct i as [|s|a|fo mo d1 d2|fo d]; simpl.
  - by apply (one_capture_ext w).
  - by apply (one_capture_ext w).
  - pose proof (arrive_frame a w) as (_ & Hb & _ & Hq & _ & Hr).
    by apply (one_capture_ext w).
  - destruct (recording w) eqn:Hrec; [done|].
    destruct Hinv as [_ Hnone]. specialize (Hnone Hrec).
    pose proof (startRecording_with_state fo mo d1 d2 w) as (_ & Hb & _ & _ & Hm).
    simpl in Hb, Hm. split; [|rewrite Hb; discriminate].
    intros r Hr. destruct mo as [stream|err]; destruct Hm as [Hrs Href].
    + rewrite Href. f_equal.
      unfold capturing in Hr. rewrite Hrs in Hr.
      destruct (decide (r < length (recorders w))) as [Hlt|Hge].
      * rewrite lookup_app_l in Hr by done.
        pose proof (no_capture_capturing r w Hnone) as Hc.
        unfold capturing in Hc. congruence.
      * destruct (decide (r = length (recorders w))) as [->|Hne]; [done|].
        rewrite lookup_ge_None_2 in Hr; [done|]. rewrite length_app. simpl. lia.
    + exfalso. unfold capturing in Hr. rewrite Hrs in Hr.
      pose proof (no_capture_capturing r w Hnone) as Hc.
      unfold capturing in Hc. congruence.
  - destruct (recording w) eqn:Hrec; [|done]. simpl.
    destruct Hinv as [Hone _].
    pose proof (stopRecording_with_state fo d w) as (_ & Hb & _ & _ & Href & Hrs).
    simpl in Hb, Href, Hrs.
    assert (Hnone : forall r, capturing r (stopRecording_with fo d w) = false).
    { intros r. unfold capturing. rewrite Hrs.
      destruct (recordRTCRef w) as [r0|] eqn:Hr0.
      - destruct (decide (r = r0)) as [->|Hne].
        + rewrite list_lookup_alter_eq. destruct (recorders w !! r0) as [k|]; [|done].
          simpl. apply bool_decide_eq_false, stopped_not_recording.
        + rewrite list_lookup_alter_ne by done.
          destruct (capturing r w) eqn:Hc; [|exact Hc].
          apply Hone in Hc. congruence.
      - destruct (capturing r w) eqn:Hc; [|exact Hc].
        apply Hone in Hc. congruence. }
    split.
    + intros r Hr. rewrite Hnone in Hr. discriminate.
    + intros _. by apply no_capture_intro.
Qed.

(** Used through its buttons, each operation running to its end before the
    next click (events and chunks may arrive at any point), the component
    never has two recorders recording: the one that is recording is the one
    the recorder reference holds, and none is while the recording flag is
    false. *)
Theorem buttons_keep_one_capture (l : list Input) (w : World) :
  one_capture w ->
  one_capture (ui_run l w)
  /\ (forall r r', capturing r (ui_run l w) = true -> capturing r' (ui_run l w) = true ->
        r = r')
  /\ (recording (ui_run l w) = false -> forall r, capturing r (ui_run l w) = false).
Proof.
  intros Hinv.
  assert (H : one_capture (ui_run l w)).
  { revert w Hinv. induction l as [|i l IH]; intros w Hinv; [exact Hinv|].
    unfold ui_run in *. simpl. by apply IH, ui_step_one_capture. }
  split; [exact H|]. destruct H as [Hone Hnone]. split.
  - intros r r' Hr Hr'. apply Hone in Hr, Hr'. congruence.
  - intros Hrec r. by apply no_capture_capturing, Hnone.
Qed.

Lemma buttons_keep_one_capture_witness :
  let l := [ Mount; CallStart (FetchJson "{}") (MicGranted 1) [] [];
             CallStart (FetchJson "{}") (MicGranted 2) [] [];
             CallStop (FetchRejected "offline") [];
             CallStop (FetchJson "{}") [];
             CallStart (FetchJson "{}") (MicRejected "NotAllowedError") [] [];
             CallStop (FetchJson "{}") [];
             CallStart (FetchJson "{}") (MicGranted 3) [] [] ] in
  capturing 1 (ui_run l (App "r")) = true
  /\ recordRTCRef (ui_run l (App "r")) = Some 1
  /\ length (recorders (ui_run l (App "r"))) = 2.
Proof.
  intros l.
  assert (H0 : one_capture (App "r")).
  { split; [intros r Hr; by destruct r | done]. }
  pose proof (buttons_keep_one_capture l (App "r") H0) as ([Hone _] & _ & _).
  split; [reflexivity|]. split; [exact (Hone 1 eq_refl) | reflexivity].
Defined.

(** ** The refs and the objects they point to *)

Lemma step_refs_ok (i : Input) (w : World) :
  refs_ok w ->
  refs_ok (step i w)
  /\ length (sockets w) <= length (sockets (step i w))
  /\ length (recorders w) <= length (recorders (step i w))
  /\ (is_Some (socketRef w) -> is_Some (socketRef (step i w)))
  /\ (is_Some (recordRTCRef w) -> is_Some (recordRTCRef (step i w))).
Proof.
  intros [Hs Hr]. unfold refs_ok.
  assert (Hsome : forall n : nat, is_Some (Some n)) by (intros n; by exists n).
  destruct i as [|s|a|fo mo d1 d2|fo d]; simpl.
  - rewrite length_app. simpl.
    repeat split; auto; try lia. intros s [= <-]. lia.
  - rewrite length_alter. repeat split; auto.
  - pose proof (arrive_frame a w) as (_ & _ & -> & -> & -> & ->).
    repeat split; auto.
  - pose proof (startRecording_with_state fo mo d1 d2 w) as (_ & _ & Hk & Hsr & Hm).
    simpl in Hk, Hsr, Hm. rewrite Hk, Hsr.
    destruct mo as [stream|err]; destruct Hm as [-> ->].
    + rewrite length_app. simpl.
      repeat split; auto; try lia. intros r [= <-]. lia.
    + repeat split; auto.
  - pose proof (stopRecording_with_state fo d w) as (_ & _ & Hk & Hsr & Href & Hrs).
    simpl in Hk, Hsr, Href, Hrs. rewrite Hk, Hsr, Href, Hrs.
    destruct (recordRTCRef w) as [r0|] eqn:Hr0; rewrite ?length_alter;
      repeat split; auto.
Qed.

(** Through every sequence of inputs, guarded by the buttons or not, a ref
    that is set points to a socket or recorder that exists; sockets and
    recorders are never removed, and a ref once set is never emptied again
    (neither by a stop nor by the cleanup of the effect). *)
Theorem refs_stay_valid (l : list Input) (w : World) :
  refs_ok w ->
  refs_ok (run l w)
  /\ length (sockets w) <= length (sockets (run l w))
  /\ length (recorders w) <= length (recorders (run l w))
  /\ (is_Some (socketRef w) -> is_Some (socketRef (run l w)))
  /\ (is_Some (recordRTCRef w) -> is_Some (recordRTCRef (run l w))).
Proof.
  revert w. induction l as [|i l IH]; intros w Hw; [repeat split; done || apply Hw|].
  unfold run in *. simpl.
  destruct (step_refs_ok i w Hw) as (H1 & H2 & H3 & H4 & H5).
  destruct (IH (step i w) H1) as (G1 & G2 & G3 & G4 & G5).
  repeat split; try apply G1; try lia; auto.
Qed.

Lemma refs_stay_valid_witness :
  let l := [ Mount; CallStart (FetchJson "{}") (MicGranted 1) [] [];
             CallStop (FetchJson "{}") []; Cleanup 0 ] in
  is_Some (socketRef (run l (snd (mount (App "r")))))
  /\ refs_ok (run l (snd (mount (App "r")))).
Proof.
  intros l.
  assert (H0 : refs_ok (snd (mount (App "r")))).
  { split; [intros s [= <-]; simpl; lia | intros r [=]]. }
  pose proof (refs_stay_valid l (snd (mount (App "r"))) H0) as (H1 & _ & _ & H4 & _).
  split; [apply H4; by eexists | exact H1].
Defined.

(** ** The room *)

Lemma tagged_growth_refl (w : World) : tagged_growth w w.
Proof. split; [done|]. exists []. by rewrite app_nil_r. Qed.

Lemma tagged_growth_trans (w1 w2 w3 : World) :
  tagged_growth w1 w2 -> tagged_growth w2 w3 -> tagged_growth w1 w3.
Proof.
  intros (Hr1 & l1 & Ht1 & Ho1) (Hr2 & l2 & Ht2 & Ho2). split; [congruence|].
  exists (l1 ++ l2). split.
  - by rewrite Ht2, Ht1, app_assoc.
  - rewrite forallb_app, Ho1. rewrite Hr1 in Ho2. by rewrite Ho2.
Qed.

Ltac tagged :=
  split; [reflexivity|]; eexists; split;
  [simpl; rewrite <- ?app_assoc; reflexivity
  |simpl; rewrite ?String.eqb_refl; reflexivity].

Lemma tagged_growth_socket_on (ev : ServerEvent) (w : World) :
  tagged_growth w (socket_on ev w).
Proof.
  unfold_handlers. repeat case_match; first [apply tagged_growth_refl | tagged].
Qed.

Lemma tagged_growth_arrive (a : Arrival) (w : World) : tagged_growth w (arrive a w).
Proof.
  destruct a as [s ev|r audio]; simpl.
  - case_match; [apply tagged_growth_socket_on | apply tagged_growth_refl].
  - case_match; [|apply tagged_growth_refl].
    unfold ondataavailable. case_match; [tagged | apply tagged_growth_refl].
Qed.

Lemma tagged_growth_arrive_all (l : list Arrival) (w : World) :
  tagged_growth w (arrive_all l w).
Proof.
  revert w. induction l as [|a l IH]; intros w; [apply tagged_growth_refl|].
  unfold arrive_all in *. simpl.
  eapply tagged_growth_trans; [apply tagged_growth_arrive | apply IH].
Qed.

Lemma tagged_growth_enter (w : World) : tagged_growth w (startRecording_enter w).
Proof. tagged. Qed.

Lemma tagged_growth_request_mic (fo : FetchOutcome) (w : World) :
  tagged_growth w (startRecording_request_mic fo w).
Proof. destruct fo; tagged. Qed.

Lemma tagged_growth_finish (mo : MicOutcome) (w : World) :
  tagged_growth w (fst (startRecording_finish mo w)).
Proof. destruct mo; [tagged | apply tagged_growth_refl]. Qed.

Lemma tagged_growth_stop (fo : FetchOutcome) (d : list Arrival) (w : World) :
  tagged_growth w (stopRecording_with fo d w).
Proof.
  unfold stopRecording_with.
  assert (Hend : forall u,
            tagged_growth u
              (match recordRTCRef
                       (match fo with
                        | FetchJson json => console_log "stop_transcription response:" json u
                        | FetchRejected err | JsonRejected err =>
                            console_error "Error calling /stop_transcription:" err u
                        end) with
               | Some r =>
                   rtc_stopRecording r
                     (match fo with
                      | FetchJson json => console_log "stop_transcription response:" json u
                      | FetchRejected err | JsonRejected err =>
                          console_error "Error calling /stop_transcription:" err u
                      end)
               | None =>
                   match fo with
                   | FetchJson json => console_log "stop_transcription response:" json u
                   | FetchRejected err | JsonRejected err =>
                       console_error "Error calling /stop_transcription:" err u
                   end
               end)).
  { intros u. destruct fo; simpl; destruct (recordRTCRef u); tagged. }
  eapply tagged_growth_trans; [|apply Hend].
  eapply tagged_growth_trans; [|apply tagged_growth_arrive_all].
  tagged.
Qed.

Lemma tagged_growth_step (i : Input) (w : World) : tagged_growth w (step i w).
Proof.
  destruct i as [|s|a|fo mo d1 d2|fo d]; simpl.
  - tagged.
  - tagged.
  - apply tagged_growth_arrive.
  - rewrite startRecording_with_turns.
    eapply tagged_growth_trans; [|apply tagged_growth_finish].
    eapply tagged_growth_trans; [|apply tagged_growth_arrive_all].
    eapply tagged_growth_trans; [|apply tagged_growth_request_mic].
    eapply tagged_growth_trans; [|apply tagged_growth_arrive_all].
    apply tagged_growth_enter.
  - apply tagged_growth_stop.
Qed.

(** The room is fixed once and for all: no input changes it, and every
    request posted, every audio_data emitted and every socket opened, in any
    sequence of inputs, carries it. *)
Theorem room_is_fixed_and_tags_every_message (l : list Input) (w : World) :
  room (run l w) = room w
  /\ forallb (room_ok (room w)) (effects_since w (run l w)) = true.
Proof.
  assert (H : tagged_growth w (run l w)).
  { revert w. induction l as [|i l IH]; intros w; [apply tagged_growth_refl|].
    unfold run in *. simpl.
    eapply tagged_growth_trans; [apply tagged_growth_step | apply IH]. }
  destruct H as (Hr & k & Ht & Ho). split; [exact Hr|].
  by rewrite (effects_since_app _ _ _ Ht).
Qed.

(** ** What arrives while a start waits *)

Lemma same_view_request_mic (fo : FetchOutcome) (w1 w2 : World) :
  same_view w1 w2 -> same_view (startRecording_request_mic fo w1) w2.
Proof. intros H. destruct fo; exact H. Qed.

Lemma startRecording_with_aggregate (fo : FetchOutcome) (mo : MicOutcome)
    (d1 d2 : list Arrival) (w : World) :
  transcripts (fst (startRecording_with fo mo d1 d2 w))
  = transcripts (arrive_all (d1 ++ d2) (startRecording_reset w))
  /\ progress (fst (startRecording_with fo mo d1 d2 w))
     = progress (arrive_all (d1 ++ d2) (startRecording_reset w))
  /\ chapterTitles (fst (startRecording_with fo mo d1 d2 w))
     = chapterTitles (arrive_all (d1 ++ d2) (startRecording_reset w)).
Proof.
  rewrite startRecording_with_turns, arrive_all_app.
  assert (H0 : same_view (startRecording_enter w) (startRecording_reset w))
    by (by repeat split).
  apply (arrive_all_same_view d1) in H0.
  apply (same_view_request_mic fo) in H0.
  apply (arrive_all_same_view d2) in H0.
  destruct H0 as (Ht & Hp & Hc & _).
  destruct mo; simpl; by rewrite Ht, Hp, Hc.
Qed.

(** The aggregate is emptied once, when the start begins: whatever arrives
    while the start waits for its request or for the microphone is
    aggregated on top of the emptied state and is still there when the start
    ends, whether it ends well or not. *)
Theorem arrivals_during_start_are_kept (fo : FetchOutcome) (mo : MicOutcome)
    (d1 d2 : list Arrival) (evs : list ServerEvent) (s : nat) (w : World) :
  connected s w = true ->
  Forall (fun ev => is_transcript_event ev = true) evs ->
  let w' := fst (startRecording_with fo mo d1 d2 w) in
  let u := arrive_all (d1 ++ d2) (startRecording_reset w) in
  (transcripts w' = transcripts u /\ progress w' = progress u
   /\ chapterTitles w' = chapterTitles u)
  /\ transcripts (fst (startRecording_with fo mo (map (Deliver s) evs) [] w))
     = map segment_of evs.
Proof.
  intros Hc Hevs w' u. split; [apply startRecording_with_aggregate|].
  rewrite (proj1 (startRecording_with_aggregate fo mo (map (Deliver s) evs) [] w)).
  rewrite app_nil_r.
  assert (H : forall v, connected s v = true ->
                arrive_all (map (Deliver s) evs) v = receive_all evs v).
  { clear Hc. induction evs as [|ev l IH]; intros v Hv; [done|].
    change (arrive_all (map (Deliver s) (ev :: l)) v)
      with (arrive_all (map (Deliver s) l) (arrive (Deliver s ev) v)).
    simpl arrive. rewrite Hv.
    change (receive_all (ev :: l) v) with (receive_all l (socket_on ev v)).
    apply IH; [by inversion Hevs|].
    unfold connected in *.
    by pose proof (socket_on_frame ev v) as (_ & _ & _ & _ & -> & _). }
  rewrite H by exact Hc.
  assert (Happ : forall v, transcripts (receive_all evs v)
                           = transcripts v ++ map segment_of evs).
  { clear H. induction Hevs as [|ev l Hev _ IH]; intros v; simpl.
    - by rewrite app_nil_r.
    - unfold receive_all in *; simpl. rewrite IH.
      rewrite socket_on_transcript by done. by rewrite <- app_assoc. }
  by rewrite Happ.
Qed.

Lemma arrivals_during_start_are_kept_witness :
  let ev := {| ev_name := "final_result"; ev_data := {[ "text" := JsStr "late" ]} |} in
  transcripts (fst (startRecording_with (FetchJson "{}") (MicRejected "NotAllowedError")
                      (map (Deliver 0) [ev]) [] (snd (mount (App "r")))))
  = map segment_of [ev].
Proof.
  intros ev.
  assert (H : Forall (fun e => is_transcript_event e = true) [ev])
    by (repeat constructor).
  exact (proj2 (arrivals_during_start_are_kept (FetchJson "{}")
                  (MicRejected "NotAllowedError") [] [] [ev] 0 (snd (mount (App "r")))
                  eq_refl H)).
Defined.

(** ** What is rendered *)




Lemma nullish_or_truthy (v d : JsVal) : truthy v = true -> nullish_or v d = v.
Proof. by destruct v. Qed.

Lemma socket_on_speakers (ev : ServerEvent) (w : World) :
  Forall (fun seg => truthy (speakerId seg) = true) (transcripts w) ->
  Forall (fun seg => truthy (speakerId seg) = true) (transcripts (socket_on ev w)).
Proof.
  intros H. destruct (is_transcript_event ev) eqn:E.
  - rewrite socket_on_transcript by done. apply Forall_app. split; [exact H|].
    constructor; [|constructor]. unfold segment_of, js_or. simpl. by case_match.
  - by rewrite (proj1 (socket_on_slices ev w) E).
Qed.

Lemma arrive_all_speakers (l : list Arrival) (w : World) :
  Forall (fun seg => truthy (speakerId seg) = true) (transcripts w) ->
  Forall (fun seg => truthy (speakerId seg) = true) (transcripts (arrive_all l w)).
Proof.
  revert w. induction l as [|a l IH]; intros w H; [exact H|].
  change (arrive_all (a :: l) w) with (arrive_all l (arrive a w)). apply IH.
  destruct a as [s ev|r audio]; simpl.
  - case_match; [by apply socket_on_speakers | exact H].
  - case_match; [|exact H]. unfold ondataavailable. by case_match.
Qed.

Lemma step_speakers (i : Input) (w : World) :
  Forall (fun seg => truthy (speakerId seg) = true) (transcripts w) ->
  Forall (fun seg => truthy (speakerId seg) = true) (transcripts (step i w)).
Proof.
  intros H. destruct i as [|s|a|fo mo d1 d2|fo d]; simpl.
  - exact H.
  - exact H.
  - by apply (arrive_all_speakers [a]).
  - rewrite (proj1 (startRecording_with_aggregate fo mo d1 d2 w)).
    apply arrive_all_speakers. constructor.
  - rewrite (proj1 (stopRecording_with_aggregate fo d w)).
    by apply arrive_all_speakers.
Qed.

(** In every state the component reaches, each stored segment has a
    speakerId that is set, so the [?? "?"] of the rendering never takes its
    right-hand side.  When rendering succeeds, exactly one of the two buttons
    is enabled, the placeholder is shown exactly when the log is empty, and
    otherwise there is one box per segment, in log order, keyed by its
    position and showing the stored speakerId and text. *)
Theorem rendered_boxes_are_the_log (l : list Input) (w0 : World) (v : View) :
  Forall (fun seg => truthy (speakerId seg) = true) (transcripts w0) ->
  let w := run l w0 in
  render w = Some v ->
  Forall (fun seg => truthy (speakerId seg) = true) (transcripts w)
  /\ stop_disabled v = negb (start_disabled v)
  /\ start_disabled v = recording w
  /\ (area v = NoSpeechYet <-> transcripts w = [])
  /\ (transcripts w <> [] ->
      area v = Boxes (imap (fun idx seg => (idx, speakerId seg, text seg)) (transcripts w)))
  /\ titles_shown v = chapterTitles w.
Proof.
  intros H0 w.
  assert (Hinv : Forall (fun seg => truthy (speakerId seg) = true) (transcripts w)).
  { subst w. revert w0 H0. induction l as [|i l IH]; intros w0 H0; [exact H0|].
    unfold run in *. simpl. by apply IH, step_speakers. }
  intros Hv. unfold render in Hv. destruct (progress w) as [| | |n|]; try discriminate.
  injection Hv as <-. simpl.
  assert (Hboxes : imap (fun idx seg =>
                           (idx, nullish_or (speakerId seg) (JsStr "?"), text seg))
                     (transcripts w)
                   = imap (fun idx seg => (idx, speakerId seg, text seg)) (transcripts w)).
  { apply imap_ext. intros i seg Hi. simpl.
    rewrite nullish_or_truthy; [done|].
    rewrite Forall_forall in Hinv. apply Hinv.
    by apply list_elem_of_lookup_2 in Hi. }
  split; [exact Hinv|]. split; [done|]. split; [done|].
  destruct (transcripts w) as [|seg t] eqn:Et; simpl.
  - repeat split; done.
  - repeat split; try done. intros _. simpl in Hboxes. by rewrite Hboxes.
Qed.

Lemma rendered_boxes_are_the_log_witness :
  let l := [ Mount;
             Arrive (Deliver 0 {| ev_name := "partial_result";
                                  ev_data := {[ "text" := JsStr "hel" ]} |});
             Arrive (Deliver 0 {| ev_name := "final_result";
                                  ev_data := <[ "speakerId" := JsStr "A" ]>
                                               {[ "text" := JsStr "hello" ]} |}) ] in
  area <$> render (run l (App "r"))
  = Some (Boxes [ (0, JsStr "?", JsStr "hel"); (1, JsStr "A", JsStr "hello") ]).
Proof.
  intros l.
  destruct (render (run l (App "r"))) as [v|] eqn:Hv; [|discriminate].
  destruct (rendered_boxes_are_the_log l (App "r") v (Forall_nil_2 _) Hv)
    as (_ & _ & _ & _ & H5 & _).
  simpl. f_equal. apply H5. discriminate.
Defined.

(** ** Stops and starts in a row *)

Lemma stopped_twice (k : Recorder) : stopped (stopped k) = stopped k.
Proof. unfold stopped. by destruct k as [st []]. Qed.

Lemma alter_stopped_twice (r : nat) (l : list Recorder) :
  alter stopped r (alter stopped r l) = alter stopped r l.
Proof.
  apply list_eq. intros i. destruct (decide (i = r)) as [->|Hne].
  - rewrite !list_lookup_alter_eq. destruct (l !! r); simpl; [|done].
    by rewrite stopped_twice.
  - by rewrite !list_lookup_alter_ne.
Qed.

(** A second stop right after a stop leaves every part of the state as the
    first left it, but is not silent: it posts stop_transcription again, and
    calls stopRecording again on the recorder the recorder reference still
    holds. *)
Theorem second_stop_changes_no_state (fo fo' : FetchOutcome) (w : World) :
  let w1 := stopRecording fo w in
  let w2 := stopRecording fo' w1 in
  (recording w2 = recording w1 /\ transcripts w2 = transcripts w1
   /\ progress w2 = progress w1 /\ chapterTitles w2 = chapterTitles w1
   /\ socketRef w2 = socketRef w1 /\ recordRTCRef w2 = recordRTCRef w1
   /\ sockets w2 = sockets w1 /\ recorders w2 = recorders w1)
  /\ filter (fun e => is_fetch e = true) (effects_since w1 w2)
     = [EFetch (socketURL +:+ "/stop_transcription") (room w)]
  /\ filter (fun e => is_rec_stop e = true) (effects_since w1 w2)
     = match recordRTCRef w with Some r => [ERecStop r] | None => [] end.
Proof.
  intros w1 w2.
  pose proof (stopRecording_with_state fo [] w) as (Hroom & Hb & Hk & Hs & Hq & Hr).
  pose proof (stopRecording_with_state fo' [] w1) as (_ & Hb' & Hk' & Hs' & Hq' & Hr').
  pose proof (stopRecording_with_aggregate fo' [] w1) as (Ht & Hp & Hc).
  fold (stopRecording fo w) in *. fold w1 in Hroom, Hb, Hk, Hs, Hq, Hr.
  fold (stopRecording fo' w1) in *. fold w2 in Hb', Hk', Hs', Hq', Hr', Ht, Hp, Hc.
  simpl in Ht, Hp, Hc.
  split.
  { repeat split; try congruence.
    rewrite Hr', Hq, Hr. destruct (recordRTCRef w); [|done].
    apply alter_stopped_twice. }
  assert (Htrace : trace w2
                   = trace w1
                     ++ [ESetRecording false;
                         EFetch (socketURL +:+ "/stop_transcription") (room w);
                         match fo' with
                         | FetchJson json => EConsoleLog "stop_transcription response:" json
                         | FetchRejected err | JsonRejected err =>
                             EConsoleError "Error calling /stop_transcription:" err
                         end]
                     ++ match recordRTCRef w with Some r => [ERecStop r] | None => [] end).
  { subst w2. unfold stopRecording at 1. unfold stopRecording_with.
    rewrite <- Hroom, <- Hq.
    destruct fo'; simpl; destruct (recordRTCRef w1); simpl;
      rewrite <- ?app_assoc; reflexivity. }
  rewrite (effects_since_app _ _ _ Htrace).
  split; destruct fo', (recordRTCRef w); reflexivity.
Qed.

(** After a start that the microphone refused, the Start button is disabled
    and does nothing, while the component shows "Listening..."; the way out
    is the Stop button, which posts stop_transcription and clears the flag,
    after which a click on Start starts again. *)
Theorem refused_microphone_needs_a_stop (fo fo1 fo2 : FetchOutcome) (mo : MicOutcome)
    (err : string) (w : World) :
  let w1 := fst (startRecording fo (MicRejected err) w) in
  click_start fo1 mo w1 = w1
  /\ status <$> render w1 = Some "Listening..."
  /\ start_disabled <$> render w1 = Some true
  /\ click_stop fo2 w1 = stopRecording fo2 w1
  /\ recording (click_stop fo2 w1) = false
  /\ click_start fo1 mo (click_stop fo2 w1)
     = fst (startRecording fo1 mo (stopRecording fo2 w1)).
Proof.
  intros w1.
  assert (Hrec : recording w1 = true) by (subst w1; by destruct fo).
  assert (Hp : progress w1 = JsNum 0) by (subst w1; by destruct fo).
  assert (Hstop : click_stop fo2 w1 = stopRecording fo2 w1).
  { unfold click_stop. by rewrite Hrec. }
  assert (Hidle : recording (stopRecording fo2 w1) = false)
    by apply (stopRecording_with_state fo2 [] w1).
  split; [unfold click_start; by rewrite Hrec|].
  split; [unfold render; by rewrite Hp, Hrec|].
  split; [unfold render; by rewrite Hp, Hrec|].
  split; [exact Hstop|].
  split; [by rewrite Hstop|].
  rewrite Hstop. unfold click_start. by rewrite Hidle.
Qed.
